(** * A rope over a binary tree of string fragments

    Shallow embedding of [include/node.hpp] ([rope_node<T>]) and of the rope
    header ([rope<T>], [fib], [build_fib_list]) of the repository, followed by
    the statements proved about them.

    Conventions of the embedding:
    - [size_t] is a 64-bit unsigned integer: values are [Z], and every
      addition, subtraction and multiplication the source performs on
      [size_t] is written with its wrap-around ([sz_add], [sz_sub],
      [sz_mul]);
    - [std::unique_ptr<rope_node>] is [option rope_node]; a moved-from or
      null pointer is [None]; dereferencing it is the fault [NullDeref];
    - the container [T] is a [std::basic_string]-like sequence, modelled as
      a list of elements; [substr] throws when the position is past the
      end, as [std::basic_string::substr] does;
    - a computation that may throw or run into undefined behaviour returns
      a [result]; a mutating member function returns the result together
      with the rope as it is left behind. *)

From Stdlib Require Import ZArith List Lia Bool Ascii.
From Stdlib Require String.
From stdpp Require Import base list.
Import String.StringSyntax.
Delimit Scope string_scope with string.

Local Open Scope Z_scope.

(** ** Machine integers *)

Definition size_t_modulus : Z := 2 ^ 64.
Definition int_max : Z := 2 ^ 31 - 1.

Definition wrap (z : Z) : Z := z mod size_t_modulus.
Definition sz_add (x y : Z) : Z := wrap (x + y).
Definition sz_sub (x y : Z) : Z := wrap (x - y).
Definition sz_mul (x y : Z) : Z := wrap (x * y).

Arguments size_t_modulus : simpl never.
Arguments int_max : simpl never.
Arguments wrap z : simpl never.
Arguments sz_add x y : simpl never.
Arguments sz_sub x y : simpl never.
Arguments sz_mul x y : simpl never.

(** ** Outcomes *)

Inductive fault : Type :=
  | OutOfRange      (* a thrown std::out_of_range *)
  | NullDeref       (* undefined: dereference of a null pointer *)
  | StringIndex     (* undefined: operator[] past the end of a string *)
  | VectorIndex     (* undefined: operator[] outside a vector *)
  | IntOverflow     (* undefined: overflow of a signed int *)
  | OutOfFuel.      (* the loop bound of the model was reached *)

Inductive result (X : Type) : Type :=
  | Ok (x : X)
  | Err (e : fault).
Arguments Ok {X} x.
Arguments Err {X} e.

#[global] Instance result_ret : MRet result := fun _ x => Ok x.
#[global] Instance result_bind : MBind result := fun _ _ f m =>
  match m with
  | Ok x => f x
  | Err e => Err e
  end.

(** Dereference of a [unique_ptr]. *)
Definition deref {X : Type} (h : option X) : result X :=
  match h with
  | Some x => Ok x
  | None => Err NullDeref
  end.

(** ** The container type *)

(** [cont_type] *)
Abbreviation cont_type := list (only parsing).

Section Container.
Variable value_type : Type.

Definition size (s : cont_type value_type) : Z := Z.of_nat (List.length s).

(** [std::basic_string::substr(pos, n)]: throws when [pos > size()],
    else the [rlen] elements from [pos], [rlen] the smaller of [n] and
    [size() - pos]. *)
Definition str_substr (s : cont_type value_type) (pos n : Z)
  : result (cont_type value_type) :=
  if size s <? pos then Err OutOfRange
  else
    let rlen := Z.min n (size s - pos) in
    Ok (take (Z.to_nat rlen) (drop (Z.to_nat pos) s)).

(** [std::basic_string::operator[]]: the element, [value_type()] at
    [pos == size()], undefined behaviour beyond. *)
Definition str_index (nul : value_type) (s : cont_type value_type) (pos : Z)
  : result value_type :=
  if pos <? size s then
    match s !! Z.to_nat pos with
    | Some c => Ok c
    | None => Err StringIndex
    end
  else if pos =? size s then Ok nul
  else Err StringIndex.

(** [std::vector::operator[]] for reading and for assignment *)
Definition vec_get {X : Type} (v : list X) (i : Z) : result X :=
  if (0 <=? i) && (i <? Z.of_nat (List.length v)) then
    match v !! Z.to_nat i with
    | Some x => Ok x
    | None => Err VectorIndex
    end
  else Err VectorIndex.

Definition vec_set {X : Type} (v : list X) (i : Z) (x : X) : result (list X) :=
  if (0 <=? i) && (i <? Z.of_nat (List.length v)) then Ok (<[Z.to_nat i := x]> v)
  else Err VectorIndex.
End Container.

Arguments size {value_type} s : simpl never.
Arguments str_substr {value_type} s pos n.
Arguments str_index {value_type} nul s pos.
Arguments vec_get {X} v i.
Arguments vec_set {X} v i x.

(** ** [rope_node<T>] *)

Module Node.
Section Node.
Variable value_type : Type.

Local Unset Elimination Schemes.

Inductive rope_node : Type :=
  mk_node {
    weight_ : Z;
    left_ : option rope_node;
    right_ : option rope_node;
    fragment_ : cont_type value_type
  }.

Local Set Elimination Schemes.

(** [handle]: the owning pointer to a node *)
Local Abbreviation handle := (option rope_node) (only parsing).

(** [is_leaf]: both child pointers are null *)
Definition is_leaf (n : rope_node) : bool :=
  match left_ n, right_ n with
  | None, None => true
  | _, _ => false
  end.

(** [rope_node(const cont_type& str)] *)
Definition leaf (str : cont_type value_type) : rope_node :=
  {| weight_ := size str; left_ := None; right_ := None; fragment_ := str |}.

(** [length()] *)
Fixpoint length (n : rope_node) : Z :=
  if is_leaf n then weight_ n
  else
    let tmp := match right_ n with
               | None => 0
               | Some r => length r
               end in
    sz_add (weight_ n) tmp.

(** [rope_node(handle l, handle r)]: the weight is read through the left
    pointer. *)
Definition concat (l r : handle) : result rope_node :=
  l' ← deref l;
  Ok {| weight_ := length l'; left_ := l; right_ := r; fragment_ := [] |}.

(** The copy constructor: a deep copy. *)
Fixpoint copy (aNode : rope_node) : rope_node :=
  {| weight_ := weight_ aNode;
     left_ := match left_ aNode with
              | None => None
              | Some tmpLeft => Some (copy tmpLeft)
              end;
     right_ := match right_ aNode with
               | None => None
               | Some tmpRight => Some (copy tmpRight)
               end;
     fragment_ := fragment_ aNode |}.

(** [get_item(index)] *)
Fixpoint get_item (nul : value_type) (n : rope_node) (index : Z)
  : result value_type :=
  let w := weight_ n in
  if is_leaf n then str_index nul (fragment_ n) index
  else if index <? w then
    match left_ n with
    | None => Err NullDeref
    | Some l => get_item nul l index
    end
  else
    match right_ n with
    | None => Err NullDeref
    | Some r => get_item nul r (sz_sub index w)
    end.

(** [get_item_safe(index)] *)
Fixpoint get_item_safe (nul : value_type) (n : rope_node) (index : Z)
  : result value_type :=
  let w := weight_ n in
  if is_leaf n then
    if weight_ n <=? index then Err OutOfRange
    else str_index nul (fragment_ n) index
  else if index <? w then
    match left_ n with
    | None => Err NullDeref
    | Some l => get_item_safe nul l index
    end
  else
    match right_ n with
    | None => Err NullDeref
    | Some r => get_item_safe nul r (sz_sub index w)
    end.

(** [substr(start, len)] *)
Fixpoint substr (n : rope_node) (start len : Z) : result (cont_type value_type) :=
  let w := weight_ n in
  if is_leaf n then
    if len <? w then str_substr (fragment_ n) start len
    else Ok (fragment_ n)
  else if start <? w then
    lResult ← match left_ n with
              | None => Ok []
              | Some l => substr l start len
              end;
    if w <? sz_add start len then
      let tmp := sz_sub w start in
      rResult ← match right_ n with
                | None => Ok []
                | Some r => substr r w (sz_sub len tmp)
                end;
      Ok (lResult ++ rResult)
    else Ok lResult
  else
    match right_ n with
    | None => Ok []
    | Some r => substr r (sz_sub start w) len
    end.

(** [tree_to_string()] *)
Fixpoint tree_to_string (n : rope_node) : cont_type value_type :=
  if is_leaf n then fragment_ n
  else
    let lResult := match left_ n with
                   | None => []
                   | Some l => tree_to_string l
                   end in
    let rResult := match right_ n with
                   | None => []
                   | Some r => tree_to_string r
                   end in
    lResult ++ rResult.

(** [split(node, index)], on the node the handle points to.  The node is
    consumed; where the source rewrites its fields before moving it into
    the result, the model builds the rewritten node. *)
Fixpoint split_node (node : rope_node) (index : Z) : result (handle * handle) :=
  let w := weight_ node in
  if is_leaf node then
    first ← str_substr (fragment_ node) 0 index;
    second ← str_substr (fragment_ node) index (sz_sub w index);
    Ok (Some (leaf first), Some (leaf second))
  else
    let oldRight := right_ node in
    if index <? w then
      splitLeftResult ← match left_ node with
                        | None => Err NullDeref
                        | Some l => split_node l index
                        end;
      let node' := {| weight_ := index;
                      left_ := fst splitLeftResult;
                      right_ := None;
                      fragment_ := fragment_ node |} in
      joined ← concat (snd splitLeftResult) oldRight;
      Ok (Some node', Some joined)
    else if w <? index then
      splitRightResult ← match oldRight with
                         | None => Err NullDeref
                         | Some r => split_node r (sz_sub index w)
                         end;
      let node' := {| weight_ := w;
                      left_ := left_ node;
                      right_ := fst splitRightResult;
                      fragment_ := fragment_ node |} in
      Ok (Some node', snd splitRightResult)
    else Ok (left_ node, oldRight).

Definition split (node : handle) (index : Z) : result (handle * handle) :=
  match node with
  | None => Err NullDeref
  | Some n => split_node n index
  end.

(** [depth()] *)
Fixpoint depth (n : rope_node) : Z :=
  if is_leaf n then 0
  else
    let lResult := match left_ n with
                   | None => 0
                   | Some l => depth l
                   end in
    let rResult := match right_ n with
                   | None => 0
                   | Some r => depth r
                   end in
    Z.max (sz_add lResult 1) (sz_add rResult 1).

(** Modelled from the spec: the member [getCharByIndex] that [rope::at]
    calls; [node.hpp] declares no member of that name.  The spec (4.1)
    gives the accessor as: at a leaf the element at [index] of the
    fragment, erroring if [index >= weight]; at an internal node the left
    child when [index < weight], else the right child with
    [index - weight]. *)
Fixpoint getCharByIndex (nul : value_type) (n : rope_node) (index : Z)
  : result value_type :=
  if is_leaf n then
    if weight_ n <=? index then Err OutOfRange
    else str_index nul (fragment_ n) index
  else if index <? weight_ n then
    match left_ n with
    | None => Err NullDeref
    | Some l => getCharByIndex nul l index
    end
  else
    match right_ n with
    | None => Err NullDeref
    | Some r => getCharByIndex nul r (sz_sub index (weight_ n))
    end.

(** [getLeaves(v)]: the leaves pushed onto [v], left to right *)
Fixpoint getLeaves (n : rope_node) (v : list rope_node) : list rope_node :=
  if is_leaf n then v ++ [n]
  else
    let v1 := match left_ n with
              | None => v
              | Some tmpLeft => getLeaves tmpLeft v
              end in
    match right_ n with
    | None => v1
    | Some tmpRight => getLeaves tmpRight v1
    end.
End Node.

Abbreviation handle value_type := (option (rope_node value_type)) (only parsing).

Arguments mk_node {value_type} weight_ left_ right_ fragment_.
Arguments weight_ {value_type} r.
Arguments left_ {value_type} r.
Arguments right_ {value_type} r.
Arguments fragment_ {value_type} r.
Arguments is_leaf {value_type} n.
Arguments leaf {value_type} str.
Arguments length {value_type} n.
Arguments concat {value_type} l r.
Arguments copy {value_type} aNode.
Arguments get_item {value_type} nul n index.
Arguments get_item_safe {value_type} nul n index.
Arguments getCharByIndex {value_type} nul n index.
Arguments substr {value_type} n start len.
Arguments tree_to_string {value_type} n.
Arguments split_node {value_type} node index.
Arguments split {value_type} node index.
Arguments depth {value_type} n.
Arguments getLeaves {value_type} n v.
End Node.

(** ** Fibonacci helpers of the rope header *)

(** [fib(n)]: the loop runs once per bit of [n]. *)
Fixpoint fib_loop (fuel : nat) (n a b c d rc rd : Z) : result Z :=
  match fuel with
  | O => Err OutOfFuel
  | S fuel' =>
    if n =? 0 then Ok rc
    else
      let '(rc1, rd1) :=
        if Z.land n 1 =? 0 then (rc, rd)
        else
          let tc := rc in
          (sz_add (sz_mul rc a) (sz_mul rd c), sz_add (sz_mul tc b) (sz_mul rd d)) in
      let ta := a in
      let tb := b in
      let tc := c in
      let a1 := sz_add (sz_mul a a) (sz_mul b c) in
      let b1 := sz_add (sz_mul ta b) (sz_mul b d) in
      let c1 := sz_add (sz_mul c ta) (sz_mul d c) in
      let d1 := sz_add (sz_mul tc tb) (sz_mul d d) in
      fib_loop fuel' (Z.shiftr n 1) a1 b1 c1 d1 rc1 rd1
  end.

Definition fib (n : Z) : result Z := fib_loop 65 n 1 1 1 0 0 1.
Arguments fib n : simpl never.

(** [build_fib_list(len)]: [a], [b] and [next] are [int]s; [a + b] beyond
    [INT_MAX] is undefined. *)
Fixpoint build_fib_loop (fuel : nat) (len a b : Z) (intervals : list Z)
  : result (list Z) :=
  match fuel with
  | O => Err OutOfFuel
  | S fuel' =>
    if a <=? len then
      let intervals1 := if 0 <? a then intervals ++ [b] else intervals in
      if int_max <? a + b then Err IntOverflow
      else
        let next := a + b in
        build_fib_loop fuel' len b next intervals1
    else Ok intervals
  end.

Definition build_fib_list (len : Z) : result (list Z) :=
  build_fib_loop 64 len 0 1 [].

(** ** [rope<T>] *)

Module Rope.
Import Node.
Section Rope.
Variable value_type : Type.

Record rope : Type := mk_rope { root_ : handle value_type }.

(** [rope(const T& str)] and the default constructor [rope()] *)
Definition of_string (str : cont_type value_type) : rope :=
  {| root_ := Some (leaf str) |}.

Definition empty : rope := of_string [].

(** [rope(const rope& r)]: the root is copied twice over. *)
Definition copy_rope (r : rope) : result rope :=
  n ← deref (root_ r);
  let newRoot := copy n in
  Ok {| root_ := Some (copy newRoot) |}.

(** [to_string()] *)
Definition to_string (this : rope) : cont_type value_type :=
  match root_ this with
  | None => []
  | Some n => tree_to_string n
  end.

(** [length()] *)
Definition length (this : rope) : Z :=
  match root_ this with
  | None => 0
  | Some n => Node.length n
  end.

(** [at(index)] *)
Definition at_ (nul : value_type) (this : rope) (index : Z) : result value_type :=
  match root_ this with
  | None => Err OutOfRange
  | Some n => getCharByIndex nul n index
  end.

(** [substr(start, len)]; the header spells the node's accessor
    [getSubstring], [node.hpp] has it as [substr]. *)
Definition substr (this : rope) (start len : Z) : result (cont_type value_type) :=
  let actualLength := length this in
  if (actualLength <? start) || (actualLength <? sz_add start len) then Err OutOfRange
  else
    n ← deref (root_ this);
    Node.substr n start len.

(** [is_balanced()] *)
Definition is_balanced (this : rope) : result bool :=
  match root_ this with
  | None => Ok true
  | Some n =>
    let d := depth n in
    f ← fib (sz_add d 2);
    Ok (f <=? length this)
  end.

(** [balance()].  Its loops are run by the functions below; the two
    [while] loops get a number of rounds, one more than the number of
    intervals, after which the model gives up with [OutOfFuel]
    ([scan_spec] and [place_spec] show that it is never reached on a rope
    whose weights are right). *)

(** The two places that put a slot in front of [acc]: both are copied,
    then joined. *)
Definition merge (slot acc : rope_node value_type) : result (rope_node value_type) :=
  let tmp := copy slot in
  let acc1 := copy acc in
  concat (Some tmp) (Some acc1).

(** The inner [while (i < max_i && len >= intervals[i + 1])] *)
Fixpoint scan (fuel : nat) (intervals : list Z) (max_i : Z)
    (nodes : list (handle value_type)) (acc : rope_node value_type) (len i : Z)
  : result (list (handle value_type) * rope_node value_type * Z * Z) :=
  match fuel with
  | O => Err OutOfFuel
  | S fuel' =>
    if i <? max_i then
      bound ← vec_get intervals (sz_add i 1);
      if bound <=? len then
        slot ← vec_get nodes i;
        st ← match slot with
             | Some s =>
               acc1 ← merge s acc;
               let len1 := Node.length acc1 in
               bound1 ← vec_get intervals (sz_add i 1);
               if bound1 <=? len1 then
                 nodes1 ← vec_set nodes i None;
                 Ok (nodes1, acc1, len1)
               else Ok (nodes, acc1, len1)
             | None => Ok (nodes, acc, len)
             end;
        scan fuel' intervals max_i (st.1.1) (st.1.2) (st.2) (sz_add i 1)
      else Ok (nodes, acc, len, i)
    else Ok (nodes, acc, len, i)
  end.

(** The [while (!inserted)] loop for one leaf; returns the slots and
    [currMaxInterval]. *)
Fixpoint place (fuel : nat) (intervals : list Z) (max_i : Z)
    (nodes : list (handle value_type)) (acc : rope_node value_type)
    (len i currMaxInterval : Z)
  : result (list (handle value_type) * Z) :=
  match fuel with
  | O => Err OutOfFuel
  | S fuel' =>
    st ← scan (S (List.length intervals)) intervals max_i nodes acc len i;
    let '(nodes0, acc0, len0, i0) := st in
    slot ← vec_get nodes0 i0;
    match slot with
    | None =>
      nodes1 ← vec_set nodes0 i0 (Some acc0);
      Ok (nodes1, if currMaxInterval <? i0 then i0 else currMaxInterval)
    | Some s =>
      acc1 ← merge s acc0;
      let len1 := Node.length acc1 in
      bound ← vec_get intervals (sz_add i0 1);
      nodes1 ← (if bound <=? len1 then vec_set nodes0 i0 None else Ok nodes0);
      place fuel' intervals max_i nodes1 acc1 len1 i0 currMaxInterval
    end
  end.

(** The [for (auto& leaf : leaves)] loop *)
Fixpoint insert_leaves (leaves : list (rope_node value_type)) (intervals : list Z)
    (max_i : Z) (nodes : list (handle value_type)) (currMaxInterval : Z)
  : result (list (handle value_type) * Z) :=
  match leaves with
  | [] => Ok (nodes, currMaxInterval)
  | lf :: rest =>
    let len := Node.length lf in
    if 0 <? len then
      st ← place (S (List.length intervals)) intervals max_i nodes (copy lf) len 0
                 currMaxInterval;
      insert_leaves rest intervals max_i st.1 st.2
    else insert_leaves rest intervals max_i nodes currMaxInterval
  end.

(** The final [for (int idx = currMaxInterval; idx >= 0; --idx)];
    [currMaxInterval] has just indexed the slot vector, so it fits an
    [int]. *)
Fixpoint fold_slots (idx : nat) (nodes : list (handle value_type))
    (acc : handle value_type) : result (handle value_type) :=
  slot ← vec_get nodes (Z.of_nat idx);
  acc1 ← match slot with
         | Some s =>
           let tmp := copy s in
           joined ← concat acc (Some tmp);
           Ok (Some joined)
         | None => Ok acc
         end;
  match idx with
  | O => Ok acc1
  | S idx' => fold_slots idx' nodes acc1
  end.

(** The body of [balance()] for a rope that is not balanced: the root to
    be assigned. *)
Definition rebuild (this : rope) : result (handle value_type) :=
  intervals ← build_fib_list (length this);
  let nodes := replicate (List.length intervals) None in
  root ← deref (root_ this);
  let leaves := getLeaves root [] in
  let max_i := sz_sub (size intervals) 1 in
  let currMaxInterval := 0 in
  st ← insert_leaves leaves intervals max_i nodes currMaxInterval;
  acc ← vec_get st.1 st.2;
  nodes1 ← vec_set st.1 st.2 None;
  fold_slots (Z.to_nat st.2) nodes1 acc.

Definition balance (this : rope) : result unit * rope :=
  match is_balanced this with
  | Err e => (Err e, this)
  | Ok true => (Ok tt, this)
  | Ok false =>
    match rebuild this with
    | Ok acc => (Ok tt, {| root_ := acc |})
    | Err e => (Err e, this)
    end
  end.

(** [insert(i, r)]: once [root_] has been moved into [split], the rope
    holds a null root until the new root is assigned. *)
Definition insert (this : rope) (i : Z) (r : rope) : result unit * rope :=
  if length this <? i then (Err OutOfRange, this)
  else
    match copy_rope r with
    | Err e => (Err e, this)
    | Ok tmp =>
      let moved := {| root_ := None |} in
      match
        origRopeSplit ← split (root_ this) i;
        tmpConcat ← concat origRopeSplit.1 (root_ tmp);
        concat (Some tmpConcat) origRopeSplit.2
      with
      | Ok n => (Ok tt, {| root_ := Some n |})
      | Err e => (Err e, moved)
      end
    end.

Definition insert_string (this : rope) (i : Z) (str : cont_type value_type)
  : result unit * rope :=
  insert this i (of_string str).

(** [append(str)] and [append(r)] *)
Definition append_string (this : rope) (str : cont_type value_type)
  : result unit * rope :=
  let tmp := of_string str in
  match concat (root_ this) (root_ tmp) with
  | Ok n => (Ok tt, {| root_ := Some n |})
  | Err e => (Err e, {| root_ := None |})
  end.

Definition append (this : rope) (r : rope) : result unit * rope :=
  match copy_rope r with
  | Err e => (Err e, this)
  | Ok tmp =>
    match concat (root_ this) (root_ tmp) with
    | Ok n => (Ok tt, {| root_ := Some n |})
    | Err e => (Err e, {| root_ := None |})
    end
  end.

(** [erase(start, len)] *)
Definition erase (this : rope) (start len : Z) : result unit * rope :=
  let actualLength := length this in
  if (actualLength <? start) || (actualLength <? sz_add start len) then
    (Err OutOfRange, this)
  else
    let moved := {| root_ := None |} in
    match
      firstSplit ← split (root_ this) start;
      secondSplit ← split firstSplit.2 len;
      concat firstSplit.1 secondSplit.2
    with
    | Ok n => (Ok tt, {| root_ := Some n |})
    | Err e => (Err e, moved)
    end.

(** [operator==] *)
Definition equal `{EqDecision value_type} (this rhs : rope) : bool :=
  bool_decide (to_string this = to_string rhs).

(** [operator!=] *)
Definition not_equal `{EqDecision value_type} (this rhs : rope) : bool :=
  negb (equal this rhs).
End Rope.

Arguments mk_rope {value_type} root_.
Arguments root_ {value_type} r.
Arguments of_string {value_type} str.
Arguments empty {value_type}.
Arguments copy_rope {value_type} r.
Arguments to_string {value_type} this.
Arguments length {value_type} this.
Arguments at_ {value_type} nul this index.
Arguments substr {value_type} this start len.
Arguments is_balanced {value_type} this.
Arguments merge {value_type} slot acc.
Arguments scan {value_type} fuel intervals max_i nodes acc len i.
Arguments place {value_type} fuel intervals max_i nodes acc len i currMaxInterval.
Arguments insert_leaves {value_type} leaves intervals max_i nodes currMaxInterval.
Arguments fold_slots {value_type} idx nodes acc.
Arguments rebuild {value_type} this.
Arguments balance {value_type} this.
Arguments insert {value_type} this i r.
Arguments insert_string {value_type} this i str.
Arguments append_string {value_type} this str.
Arguments append {value_type} this r.
Arguments erase {value_type} this start len.
Arguments equal {value_type _} this rhs.
Arguments not_equal {value_type _} this rhs.
End Rope.

(** ** Notions used in the statements *)

(** The standard Fibonacci sequence, [Fib 0 = 0], [Fib 1 = 1]. *)
Fixpoint Fib (n : nat) : Z :=
  match n with
  | O => 0
  | S m =>
    match m with
    | O => 1
    | S k => Fib m + Fib k
    end
  end.

Section Invariants.
Context {A : Type}.
Import Node.

(** What a child slot contributes to the represented string. *)
Definition handle_string (h : handle A) : cont_type A :=
  match h with
  | None => []
  | Some n => tree_to_string n
  end.

Definition handle_all (P : rope_node A -> Prop) (h : handle A) : Prop :=
  match h with
  | None => True
  | Some n => P n
  end.

(** Structural induction through the child slots. *)
Fixpoint rope_node_ind (P : rope_node A -> Prop)
    (step : forall w l r f, handle_all P l -> handle_all P r -> P (mk_node w l r f))
    (n : rope_node A) : P n :=
  match n with
  | mk_node w l r f =>
    step w l r f
      (match l as h return handle_all P h with
       | None => I
       | Some l' => rope_node_ind P step l'
       end)
      (match r as h return handle_all P h with
       | None => I
       | Some r' => rope_node_ind P step r'
       end)
  end.

(** The string a node represents fits a [size_t]. *)
Definition representable (n : rope_node A) : Prop :=
  size (tree_to_string n) < size_t_modulus.

(** The invariants I1 to I3 of the data model: a leaf has no child and
    its weight is the size of its fragment; an internal node has both
    children, an empty fragment, and the size of its left subtree as
    weight. *)
Fixpoint well_formed (n : rope_node A) : Prop :=
  match left_ n, right_ n with
  | None, None => weight_ n = size (fragment_ n)
  | Some l, Some r =>
    well_formed l /\ well_formed r /\
    weight_ n = size (tree_to_string l) /\ fragment_ n = []
  | _, _ => False
  end.

(** What the operations keep of them: the weights, and a left child
    under every node that is not a leaf. *)
Fixpoint weights_ok (n : rope_node A) : Prop :=
  match left_ n, right_ n with
  | None, None => weight_ n = size (fragment_ n)
  | Some l, r =>
    weights_ok l /\ weight_ n = size (tree_to_string l) /\
    match r with
    | None => True
    | Some r' => weights_ok r'
    end
  | None, Some _ => False
  end.

(** Every node on the rightmost path has a right child, down to a leaf. *)
Fixpoint right_spine (n : rope_node A) : Prop :=
  if is_leaf n then True
  else
    match right_ n with
    | None => False
    | Some r => right_spine r
    end.

(** The depth as the data model has it: 0 for a leaf, one more than the
    deeper child otherwise, an absent child counting for 0. *)
Fixpoint height (n : rope_node A) : nat :=
  match left_ n, right_ n with
  | None, None => O
  | l, r =>
    S (Nat.max (match l with None => O | Some l' => height l' end)
               (match r with None => O | Some r' => height r' end))
  end.

(** Some node of the tree has exactly one child. *)
Fixpoint has_single_child (n : rope_node A) : bool :=
  match left_ n, right_ n with
  | None, None => false
  | Some l, Some r => has_single_child l || has_single_child r
  | _, _ => true
  end.

(** The state of a rope between public operations. *)
Definition rope_ok (R : Rope.rope A) : Prop :=
  exists n, Rope.root_ R = Some n /\ weights_ok n /\ right_spine n /\ representable n.

(** The leaves of a tree, left to right. *)
Definition leaves (n : rope_node A) : list (rope_node A) := getLeaves n [].

Definition handle_leaves (h : handle A) : list (rope_node A) :=
  match h with
  | None => []
  | Some n => leaves n
  end.

Definition leaf_ok (lf : rope_node A) : Prop :=
  is_leaf lf = true /\ weight_ lf = size (fragment_ lf).

(** What the slot vector of [balance()] represents: the slots from the
    highest index down to slot 0. *)
Definition slots_string (nodes : list (handle A)) : cont_type A :=
  foldr (fun h acc => acc ++ handle_string h) [] nodes.

(** Slot [j] holds a tree whose length lies in the interval [j]. *)
Definition slot_ok (j : nat) (s : rope_node A) : Prop :=
  weights_ok s /\ right_spine s /\
  Fib (j + 2) <= size (tree_to_string s) < Fib (j + 3).

Definition slots_ok (nodes : list (handle A)) : Prop :=
  forall j s, nodes !! j = Some (Some s) -> slot_ok j s.

(** The slots below [i] are empty. *)
Definition lower_empty (nodes : list (handle A)) (i : nat) : Prop :=
  forall j, (j < i)%nat -> nodes !! j = Some None.

(** No slot above [Nat.max cm i] is in use, and slot [cm] is when it is
    above [i]. *)
Definition top_slot (nodes : list (handle A)) (i cm : nat) : Prop :=
  (forall j s, nodes !! j = Some (Some s) -> (j <= Nat.max cm i)%nat) /\
  ((i < cm)%nat -> exists s, nodes !! cm = Some (Some s)).
End Invariants.

Section MoreNotions.
Context {A : Type}.
Import Node.

(** The range [start, start + len) is served by one leaf: on the way down
    [substr] never has to join two partial results. *)
Fixpoint within_leaf (n : rope_node A) (start len : Z) : Prop :=
  match left_ n, right_ n with
  | None, None => start + len <= weight_ n
  | l, r =>
    if start <? weight_ n then
      start + len <= weight_ n /\
      match l with
      | None => True
      | Some l' => within_leaf l' start len
      end
    else
      match r with
      | None => True
      | Some r' => within_leaf r' (start - weight_ n) len
      end
  end.

(** A tree as [balance()] builds it: no empty leaf, and under every other
    node two children and an empty fragment. *)
Fixpoint packed (n : rope_node A) : bool :=
  match left_ n, right_ n with
  | None, None => 0 <? size (fragment_ n)
  | Some l, Some r => (size (fragment_ n) =? 0) && packed l && packed r
  | _, _ => false
  end.

Definition handle_packed (h : handle A) : Prop :=
  match h with
  | None => True
  | Some s => packed s = true
  end.

(** [append(str)] for each string of a list, one after the other. *)
Definition append_strings (R : Rope.rope A) (strs : list (cont_type A)) : Rope.rope A :=
  foldl (fun r str => (Rope.append_string r str).2) R strs.
End MoreNotions.

(** The interval bounds [build_fib_list] returns: [Fib 2], [Fib 3], ... *)
Definition fib_intervals (m : nat) : list Z := map (fun i => Fib (i + 2)) (seq 0 m).

(** ** Ropes used as concrete inputs *)

Definition chars (s : String.string) : cont_type ascii := String.list_ascii_of_string s.
Arguments chars s%_string.

#[global] Instance ascii_eq_dec : EqDecision ascii := Ascii.ascii_dec.

Definition appended (R : Rope.rope ascii) (s : String.string) : Rope.rope ascii :=
  (Rope.append_string R (chars s)).2.
Arguments appended R s%_string.

Definition some_text_root : Node.rope_node ascii :=
  Node.mk_node 4 (Some (Node.leaf (chars "some"))) (Some (Node.leaf (chars "text"))) [].

Definition some_text : Rope.rope ascii := appended (Rope.of_string (chars "some")) "text".
Definition some_txt : Rope.rope ascii := appended (Rope.of_string (chars "some")) "txt".
Definition abc : Rope.rope ascii := Rope.of_string (chars "abc").
Definition a_to_g : Rope.rope ascii :=
  appended (appended (appended (appended (appended (appended
    (Rope.of_string (chars "a")) "b") "c") "d") "e") "f") "g".

(** A node as [split] leaves it behind: a left child and no right one. *)
Definition so_cut : Node.rope_node ascii :=
  Node.mk_node 2 (Some (Node.leaf (chars "so"))) None [].

Definition so_cut_text : Node.rope_node ascii :=
  Node.mk_node 2 (Some so_cut) (Some (Node.leaf (chars "text"))) [].

(** * Properties *)

(** ** Arithmetic and container facts *)

Lemma modulus_pos : 0 < size_t_modulus.
Proof. reflexivity. Qed.

Lemma wrap_small z : 0 <= z < size_t_modulus -> wrap z = z.
Proof. intros H. unfold wrap. apply Z.mod_small. exact H. Qed.

Lemma wrap_range z : 0 <= wrap z < size_t_modulus.
Proof. unfold wrap. apply Z.mod_pos_bound. exact modulus_pos. Qed.

Lemma sz_add_small x y : 0 <= x + y < size_t_modulus -> sz_add x y = x + y.
Proof. apply wrap_small. Qed.

Lemma sz_sub_small x y : 0 <= x - y < size_t_modulus -> sz_sub x y = x - y.
Proof. apply wrap_small. Qed.

Section ContainerFacts.
Context {A : Type}.
Implicit Types s t : cont_type A.

Lemma size_nonneg s : 0 <= size s.
Proof. unfold size. lia. Qed.

Lemma size_app s t : size (s ++ t) = size s + size t.
Proof. unfold size. rewrite length_app. lia. Qed.

Lemma size_take s k : 0 <= k <= size s -> size (take (Z.to_nat k) s) = k.
Proof. unfold size. intros H. rewrite length_take. lia. Qed.

Lemma size_drop s k : 0 <= k <= size s -> size (drop (Z.to_nat k) s) = size s - k.
Proof. unfold size. intros H. rewrite length_drop. lia. Qed.

Lemma str_substr_prefix s k :
  0 <= k <= size s -> str_substr s 0 k = Ok (take (Z.to_nat k) s).
Proof.
  intros H. unfold str_substr.
  destruct (Z.ltb_spec (size s) 0) as [Hlt|_]; [lia|].
  rewrite Z.sub_0_r, Z.min_l by lia. reflexivity.
Qed.

Lemma str_substr_suffix s k :
  0 <= k <= size s -> str_substr s k (size s - k) = Ok (drop (Z.to_nat k) s).
Proof.
  intros H. unfold str_substr.
  destruct (Z.ltb_spec (size s) k) as [Hlt|_]; [lia|].
  rewrite Z.min_id. f_equal. apply take_ge.
  rewrite length_drop. unfold size in *. lia.
Qed.

Lemma take_app_Z s t k :
  0 <= k <= size s -> take (Z.to_nat k) (s ++ t) = take (Z.to_nat k) s.
Proof. unfold size. intros H. apply take_app_le. lia. Qed.

Lemma drop_app_Z s t k :
  0 <= k <= size s -> drop (Z.to_nat k) (s ++ t) = drop (Z.to_nat k) s ++ t.
Proof. unfold size. intros H. apply drop_app_le. lia. Qed.

Lemma take_app_Z_ge s t k :
  size s <= k ->
  take (Z.to_nat k) (s ++ t) = s ++ take (Z.to_nat (k - size s)) t.
Proof.
  unfold size. intros H. rewrite take_app_ge by lia.
  do 2 f_equal. lia.
Qed.

Lemma drop_app_Z_ge s t k :
  size s <= k ->
  drop (Z.to_nat k) (s ++ t) = drop (Z.to_nat (k - size s)) t.
Proof.
  unfold size. intros H. rewrite drop_app_ge by lia.
  f_equal. lia.
Qed.
End ContainerFacts.

(** ** Nodes: copies, lengths, invariants *)

Section NodeFacts.
Context {A : Type}.
Import Node.
Implicit Types (n : rope_node A) (l r : handle A) (f : cont_type A).

Lemma copy_id n : copy n = n.
Proof.
  induction n as [w l r f IHl IHr] using rope_node_ind.
  destruct l as [l'|], r as [r'|]; simpl in *; rewrite ?IHl, ?IHr; reflexivity.
Qed.

Lemma tree_to_string_internal w l r f :
  is_leaf (mk_node w l r f) = false ->
  tree_to_string (mk_node w l r f) = handle_string l ++ handle_string r.
Proof. destruct l, r; simpl; intros H; try discriminate; reflexivity. Qed.

Lemma length_internal w l r f :
  is_leaf (mk_node w l r f) = false ->
  length (mk_node w l r f) =
    sz_add w (match r with None => 0 | Some r' => length r' end).
Proof. destruct l, r; simpl; intros H; try discriminate; reflexivity. Qed.

Lemma representable_left w l r f (l' : rope_node A) :
  l = Some l' -> representable (mk_node w l r f) -> representable l'.
Proof.
  intros -> H. unfold representable in *.
  rewrite tree_to_string_internal in H by reflexivity. simpl in H.
  rewrite size_app in H. pose proof (size_nonneg (handle_string r)). lia.
Qed.

Lemma representable_right w l r f (r' : rope_node A) :
  r = Some r' -> representable (mk_node w l r f) -> representable r'.
Proof.
  intros -> H. unfold representable in *.
  rewrite tree_to_string_internal in H by (destruct l; reflexivity). simpl in H.
  rewrite size_app in H. pose proof (size_nonneg (handle_string l)). lia.
Qed.

(** Under the weight invariant [length()] is the size of the
    represented string. *)
Lemma length_weights n :
  weights_ok n -> representable n -> length n = size (tree_to_string n).
Proof.
  induction n as [w l r f IHl IHr] using rope_node_ind.
  intros Hw Hrep.
  destruct l as [l'|].
  - rewrite length_internal, tree_to_string_internal by reflexivity.
    simpl in Hw. destruct Hw as (Hwl & Hweight & Hwr).
    unfold representable in Hrep.
    rewrite tree_to_string_internal in Hrep by reflexivity.
    simpl in *. rewrite size_app in *.
    pose proof (size_nonneg (tree_to_string l')).
    destruct r as [r'|]; simpl in *.
    + pose proof (size_nonneg (tree_to_string r')).
      rewrite IHr; [|assumption|unfold representable; lia].
      rewrite sz_add_small by lia. lia.
    + change (size (@nil A)) with 0 in *. rewrite sz_add_small by lia. lia.
  - destruct r as [r'|]; simpl in Hw; [contradiction|]. simpl. exact Hw.
Qed.

Lemma well_formed_weights n : well_formed n -> weights_ok n.
Proof.
  induction n as [w l r f IHl IHr] using rope_node_ind.
  destruct l as [l'|], r as [r'|]; simpl in *; intuition.
Qed.

Lemma well_formed_spine n : well_formed n -> right_spine n.
Proof.
  induction n as [w l r f IHl IHr] using rope_node_ind.
  destruct l as [l'|], r as [r'|]; simpl in *; intuition.
Qed.

Lemma well_formed_single n : well_formed n -> has_single_child n = false.
Proof.
  induction n as [w l r f IHl IHr] using rope_node_ind.
  destruct l as [l'|], r as [r'|]; simpl in *; try tauto.
  intros (Hl & Hr & _). rewrite IHl, IHr by assumption. reflexivity.
Qed.
End NodeFacts.

Lemma bind_ok {X Y : Type} (x : X) (k : X -> result Y) : (Ok x ≫= k) = k x.
Proof. reflexivity. Qed.

(** ** Splitting *)

Section SplitFacts.
Context {A : Type}.
Import Node.
Implicit Types (n : rope_node A) (f : cont_type A).

Lemma split_leaf f k :
  0 <= k <= size f -> size f < size_t_modulus ->
  split_node (leaf f) k =
    Ok (Some (leaf (take (Z.to_nat k) f)), Some (leaf (drop (Z.to_nat k) f))).
Proof.
  intros Hk Hrep. simpl.
  rewrite str_substr_prefix by exact Hk. rewrite bind_ok.
  rewrite sz_sub_small by lia.
  rewrite str_substr_suffix by exact Hk. reflexivity.
Qed.

Lemma split_node_internal w (l' : rope_node A) (r : handle A) f k :
  split_node (mk_node w (Some l') r f) k =
    if k <? w then
      splitLeftResult ← split_node l' k;
      joined ← concat (snd splitLeftResult) r;
      Ok (Some (mk_node k (fst splitLeftResult) None f), Some joined)
    else if w <? k then
      splitRightResult ← match r with
                         | None => Err NullDeref
                         | Some r' => split_node r' (sz_sub k w)
                         end;
      Ok (Some (mk_node w (Some l') (fst splitRightResult) f), snd splitRightResult)
    else Ok (Some l', r).
Proof. destruct r; reflexivity. Qed.

(** The general statement behind every use of [split]: the weight
    invariant is enough for the contents; a right part exists as soon as
    the split point is inside the string, or the rightmost path is
    complete. *)
Lemma split_node_spec n :
  weights_ok n -> representable n ->
  forall k, 0 <= k <= size (tree_to_string n) ->
  (k = size (tree_to_string n) -> right_spine n) ->
  exists a b,
    split_node n k = Ok (Some a, Some b) /\
    tree_to_string a = take (Z.to_nat k) (tree_to_string n) /\
    tree_to_string b = drop (Z.to_nat k) (tree_to_string n) /\
    weights_ok a /\ weights_ok b /\
    (right_spine n -> right_spine b).
Proof.
  induction n as [w l r f IHl IHr] using rope_node_ind.
  intros Hw Hrep k Hk Hend.
  destruct l as [l'|].
  - (* an internal node *)
    pose proof (representable_left _ _ _ _ _ eq_refl Hrep) as Hrepl.
    unfold representable in Hrep, Hrepl.
    rewrite tree_to_string_internal in * by reflexivity.
    simpl in Hw. destruct Hw as (Hwl & Hweight & Hwr).
    simpl handle_string in *. rewrite size_app in *.
    pose proof (size_nonneg (tree_to_string l')) as Hl0.
    pose proof (size_nonneg (handle_string r)) as Hr0.
    simpl in IHl. rewrite split_node_internal.
    destruct (Z.ltb_spec k w) as [Hlt|Hge].
    + (* the split point is inside the left subtree *)
      destruct (IHl Hwl Hrepl k ltac:(lia) ltac:(lia))
        as (a & b & -> & Ha & Hb & Hwa & Hwb & _).
      rewrite bind_ok. simpl.
      assert (length b = size (tree_to_string b)) as Hlen.
      { apply length_weights; [exact Hwb|]. unfold representable.
        rewrite Hb, size_drop by lia. lia. }
      eexists _, _. split; [reflexivity|].
      rewrite !tree_to_string_internal by reflexivity. simpl handle_string.
      rewrite Ha, Hb, app_nil_r, take_app_Z, drop_app_Z by lia.
      split_and!; try reflexivity.
      * simpl. rewrite Ha, size_take by lia. auto.
      * simpl. auto.
      * simpl. destruct r; auto.
    + destruct (Z.ltb_spec w k) as [Hgt|Hle].
      * (* the split point is inside the right subtree *)
        destruct r as [r'|];
          [|cbn [handle_string] in *; change (size (@nil A)) with 0 in *; lia].
        simpl in IHr, Hwr, Hr0, Hk, Hrep.
        rewrite sz_sub_small by lia.
        destruct (IHr Hwr ltac:(unfold representable; lia) (k - w) ltac:(lia))
          as (a & b & -> & Ha & Hb & Hwa & Hwb & Hsp).
        { intros Heq. apply (Hend ltac:(simpl; lia)). }
        rewrite bind_ok. simpl fst. simpl snd.
        eexists _, _. split; [reflexivity|].
        rewrite !tree_to_string_internal by reflexivity. simpl handle_string.
        rewrite Ha, Hb, take_app_Z_ge, drop_app_Z_ge by lia. subst w.
        split_and!; try reflexivity; simpl; auto.
      * (* the split point is the boundary of the two children *)
        assert (k = w) as -> by lia.
        destruct r as [r'|].
        -- eexists _, _. split; [reflexivity|]. simpl handle_string. subst w.
           rewrite take_app_Z_ge, drop_app_Z_ge, Z.sub_diag by lia. simpl.
           rewrite app_nil_r.
           split_and!; auto.
        -- cbn [handle_string] in *. change (size (@nil A)) with 0 in *.
           exfalso. apply (Hend ltac:(simpl; lia)).
  - (* a leaf *)
    destruct r as [r'|]; simpl in Hw; [contradiction|].
    change (mk_node w None None f) with (mk_node w None None f) in *.
    unfold representable in Hrep. simpl in Hrep, Hk. subst w.
    change (mk_node (size f) None None f) with (leaf f).
    rewrite split_leaf by lia.
    eexists _, _. split; [reflexivity|]. simpl. auto.
Qed.
End SplitFacts.

(** ** The Fibonacci helper *)

Lemma Fib_step n : Fib (S (S n)) = Fib (S n) + Fib n.
Proof. reflexivity. Qed.

Lemma Fib_nonneg n : 0 <= Fib n /\ 0 <= Fib (S n).
Proof.
  induction n as [|n [IH0 IH1]]; [simpl; lia|].
  rewrite Fib_step. lia.
Qed.

Lemma Fib_succ_le n : Fib n <= Fib (S n).
Proof.
  destruct n as [|n]; [simpl; lia|].
  rewrite Fib_step. pose proof (Fib_nonneg n). lia.
Qed.

Lemma Fib_mono n m : (n <= m)%nat -> Fib n <= Fib m.
Proof.
  intros H. induction H as [|m H IH]; [lia|].
  pose proof (Fib_succ_le m). lia.
Qed.

(** The sequence computed by pairs agrees with [Fib]; it is what makes
  [Fib] of a large argument computable. *)
Lemma Fib_pairs n :
  Nat.iter n (fun p : Z * Z => (snd p, fst p + snd p)) (0, 1) = (Fib n, Fib (S n)).
Proof.
  induction n as [|n IH]; [reflexivity|].
  simpl Nat.iter. rewrite IH. cbn [fst snd].
  rewrite Fib_step, Z.add_comm. reflexivity.
Qed.

Lemma Fib_fst n :
  Fib n = fst (Nat.iter n (fun p : Z * Z => (snd p, fst p + snd p)) (0, 1)).
Proof. rewrite Fib_pairs. reflexivity. Qed.

Lemma Fib_93 : Fib 93 = 12200160415121876738.
Proof. rewrite Fib_fst. vm_compute. reflexivity. Qed.

Lemma Fib_fits n : (n <= 93)%nat -> 0 <= Fib n < size_t_modulus.
Proof.
  intros H. pose proof (Fib_mono n 93 H) as Hm. rewrite Fib_93 in Hm.
  pose proof (Fib_nonneg n). unfold size_t_modulus. lia.
Qed.

(** Addition formulas, with [Fib (S k) - Fib k] in the place of the
  Fibonacci number before [Fib k]. *)
Lemma Fib_add k m :
  Fib (k + m) = Fib k * Fib (S m) + (Fib (S k) - Fib k) * Fib m /\
  Fib (k + S m) = Fib k * Fib (S (S m)) + (Fib (S k) - Fib k) * Fib (S m).
Proof.
  induction m as [|m [IH0 IH1]].
  - rewrite Nat.add_0_r, Nat.add_1_r. simpl Fib. lia.
  - split; [exact IH1|].
    replace (k + S (S m))%nat with (S (S (k + m))) by lia.
    rewrite Fib_step. replace (S (k + m)) with (k + S m)%nat by lia.
    rewrite IH0, IH1, (Fib_step (S m)), (Fib_step m). ring.
Qed.

Lemma Fib_add_pred k m :
  Fib (S (k + m)) - Fib (k + m) =
    Fib k * Fib m + (Fib (S k) - Fib k) * (Fib (S m) - Fib m).
Proof.
  destruct (Fib_add k m) as [H0 H1].
  replace (S (k + m)) with (k + S m)%nat by lia.
  rewrite H0, H1, Fib_step. ring.
Qed.

Lemma dot_wrap x y u v :
  sz_add (sz_mul (wrap x) (wrap y)) (sz_mul (wrap u) (wrap v)) = wrap (x * y + u * v).
Proof.
  unfold sz_add, sz_mul, wrap.
  rewrite <- !Zmult_mod, <- Zplus_mod. reflexivity.
Qed.

Lemma land_1 n : 0 <= n -> Z.land n 1 = n mod 2.
Proof. intros H. change 1 with (Z.ones 1). rewrite Z.land_ones by lia. reflexivity. Qed.

Lemma shiftr_1 n : Z.shiftr n 1 = n / 2.
Proof. rewrite Z.shiftr_div_pow2 by lia. reflexivity. Qed.

Lemma fib_loop_unfold fuel n a b c d rc rd :
  fib_loop (S fuel) n a b c d rc rd =
    if n =? 0 then Ok rc
    else
      fib_loop fuel (Z.shiftr n 1)
        (sz_add (sz_mul a a) (sz_mul b c)) (sz_add (sz_mul a b) (sz_mul b d))
        (sz_add (sz_mul c a) (sz_mul d c)) (sz_add (sz_mul c b) (sz_mul d d))
        (if Z.land n 1 =? 0 then rc else sz_add (sz_mul rc a) (sz_mul rd c))
        (if Z.land n 1 =? 0 then rd else sz_add (sz_mul rc b) (sz_mul rd d)).
Proof. simpl. destruct (n =? 0), (Z.land n 1 =? 0); reflexivity. Qed.

(** The loop invariant of [fib]: the matrix holds the Fibonacci numbers
  around [m], the result row those around [k]. *)
Lemma fib_loop_spec fuel : forall n m k,
  0 <= n < 2 ^ Z.of_nat fuel ->
  fib_loop (S fuel) n
    (wrap (Fib (S m))) (wrap (Fib m)) (wrap (Fib m)) (wrap (Fib (S m) - Fib m))
    (wrap (Fib k)) (wrap (Fib (S k) - Fib k))
  = Ok (wrap (Fib (k + m * Z.to_nat n))).
Proof.
  induction fuel as [|fuel IH]; intros n m k Hn.
  - assert (n = 0) as -> by (simpl in Hn; lia).
    rewrite fib_loop_unfold. simpl. rewrite Nat.mul_0_r, Nat.add_0_r. reflexivity.
  - remember (S fuel) as fuel1 eqn:Hfuel. rewrite fib_loop_unfold.
    destruct (Z.eqb_spec n 0) as [->|Hn0].
    { rewrite Nat.mul_0_r, Nat.add_0_r. reflexivity. }
    rewrite land_1, shiftr_1 by lia. rewrite !dot_wrap.
    assert (0 <= n / 2 < 2 ^ Z.of_nat fuel) as Hq.
    { subst fuel1. rewrite Nat2Z.inj_succ, Z.pow_succ_r in Hn by lia.
      split; [apply Z.div_pos; lia|apply Z.div_lt_upper_bound; lia]. }
    pose proof (Z.div_mod n 2 ltac:(lia)) as Hdm.
    pose proof (Z.mod_pos_bound n 2 ltac:(lia)) as Hbit.
    destruct (Fib_add m m) as [Hmm Hmm1].
    pose proof (Fib_add_pred m m) as Hpmm.
    assert (Fib (S (m + m)) = Fib (S m) * Fib (S m) + Fib m * Fib m) as Ha.
    { replace (S (m + m)) with (m + S m)%nat by lia. rewrite Hmm1, Fib_step. ring. }
    replace (Fib (S m) * Fib (S m) + Fib m * Fib m) with (Fib (S (m + m))) by lia.
    replace (Fib (S m) * Fib m + Fib m * (Fib (S m) - Fib m)) with (Fib (m + m))
      by (rewrite Hmm; ring).
    replace (Fib m * Fib (S m) + (Fib (S m) - Fib m) * Fib m) with (Fib (m + m))
      by (rewrite Hmm; ring).
    replace (Fib m * Fib m + (Fib (S m) - Fib m) * (Fib (S m) - Fib m))
      with (Fib (S (m + m)) - Fib (m + m)) by (rewrite Hpmm; ring).
    destruct (Z.eqb_spec (n mod 2) 0) as [Hev|Hodd].
    + subst fuel1. rewrite (IH (n / 2) (m + m)%nat k Hq).
      assert (Z.to_nat n = 2 * Z.to_nat (n / 2))%nat as -> by lia.
      replace (k + (m + m) * Z.to_nat (n / 2))%nat
        with (k + m * (2 * Z.to_nat (n / 2)))%nat by lia.
      reflexivity.
    + destruct (Fib_add k m) as [Hkm _].
      pose proof (Fib_add_pred k m) as Hpkm.
      replace (Fib k * Fib (S m) + (Fib (S k) - Fib k) * Fib m) with (Fib (k + m))
        by (rewrite Hkm; ring).
      replace (Fib k * Fib m + (Fib (S k) - Fib k) * (Fib (S m) - Fib m))
        with (Fib (S (k + m)) - Fib (k + m)) by (rewrite Hpkm; ring).
      subst fuel1. rewrite (IH (n / 2) (m + m)%nat (k + m)%nat Hq).
      assert (Z.to_nat n = 2 * Z.to_nat (n / 2) + 1)%nat as -> by lia.
      replace (k + m + (m + m) * Z.to_nat (n / 2))%nat
        with (k + m * (2 * Z.to_nat (n / 2) + 1))%nat by lia.
      reflexivity.
Qed.

(** [fib] computes the Fibonacci numbers, in [size_t] arithmetic. *)
Lemma fib_standard n :
  0 <= n < size_t_modulus -> fib n = Ok (wrap (Fib (Z.to_nat n))).
Proof.
  intros Hn. unfold fib.
  pose proof (fib_loop_spec 64 n 1 0 Hn) as H.
  rewrite Nat.add_0_l, Nat.mul_1_l in H. exact H.
Qed.

(** ** Statements about nodes *)

Section NodeClaims.
Context {A : Type}.
Import Node.
Implicit Types (n a b : rope_node A).

Lemma take_size_length n k :
  weights_ok n -> representable n -> 0 <= k <= size (tree_to_string n) ->
  forall a, weights_ok a -> tree_to_string a = take (Z.to_nat k) (tree_to_string n) ->
  length a = k.
Proof.
  intros Hw Hrep Hk a Hwa Ha. unfold representable in Hrep.
  rewrite length_weights; [rewrite Ha, size_take by lia; reflexivity|exact Hwa|].
  unfold representable. rewrite Ha, size_take by lia. lia.
Qed.

Lemma drop_size_length n k :
  weights_ok n -> representable n -> 0 <= k <= size (tree_to_string n) ->
  forall b, weights_ok b -> tree_to_string b = drop (Z.to_nat k) (tree_to_string n) ->
  length b = size (tree_to_string n) - k.
Proof.
  intros Hw Hrep Hk b Hwb Hb. unfold representable in Hrep.
  rewrite length_weights; [rewrite Hb, size_drop by lia; reflexivity|exact Hwb|].
  unfold representable. rewrite Hb, size_drop by lia. lia.
Qed.

(** C1. For a node that satisfies the invariants of the data model and a
    split point [0 <= k <= length()], [split] returns two nodes: the
    first represents the first [k] elements, the second the remaining
    ones, their lengths add up to the length of the node, and joining
    them again gives the represented string back. *)
Theorem split_correct n k :
  well_formed n -> representable n -> 0 <= k <= length n ->
  exists left_part right_part,
    split (Some n) k = Ok (Some left_part, Some right_part) /\
    tree_to_string left_part = take (Z.to_nat k) (tree_to_string n) /\
    tree_to_string right_part = drop (Z.to_nat k) (tree_to_string n) /\
    length left_part + length right_part = length n /\
    exists joined,
      concat (Some left_part) (Some right_part) = Ok joined /\
      tree_to_string joined = tree_to_string n.
Proof.
  intros Hwf Hrep Hk.
  pose proof (well_formed_weights n Hwf) as Hw.
  pose proof (well_formed_spine n Hwf) as Hsp.
  rewrite (length_weights n Hw Hrep) in *.
  destruct (split_node_spec n Hw Hrep k Hk (fun _ => Hsp))
    as (a & b & Hsplit & Ha & Hb & Hwa & Hwb & _).
  exists a, b. split_and!; try assumption.
  - rewrite (take_size_length n k Hw Hrep Hk a Hwa Ha).
    rewrite (drop_size_length n k Hw Hrep Hk b Hwb Hb). lia.
  - eexists. split; [reflexivity|].
    rewrite tree_to_string_internal by reflexivity. simpl.
    rewrite Ha, Hb. apply take_drop.
Qed.

End NodeClaims.

Lemma split_correct_witness :
  exists left_part right_part,
    Node.split (Some some_text_root) 2 = Ok (Some left_part, Some right_part) /\
    Node.tree_to_string left_part = take 2 (chars "sometext") /\
    Node.tree_to_string right_part = drop 2 (chars "sometext") /\
    Node.length left_part + Node.length right_part = 8 /\
    exists joined,
      Node.concat (Some left_part) (Some right_part) = Ok joined /\
      Node.tree_to_string joined = chars "sometext".
Proof.
  apply (split_correct some_text_root 2).
  - vm_compute. repeat split; reflexivity.
  - vm_compute. reflexivity.
  - vm_compute. split; discriminate.
Defined.


(** ** The balance criterion *)

Section BalanceCriterion.
Context {A : Type}.
Import Node.
Implicit Types (n : rope_node A).

Lemma depth_internal w (l r : handle A) f :
  is_leaf (mk_node w l r f) = false ->
  depth (mk_node w l r f) =
    Z.max (sz_add (match l with None => 0 | Some l' => depth l' end) 1)
          (sz_add (match r with None => 0 | Some r' => depth r' end) 1).
Proof. destruct l, r; simpl; intros H; try discriminate; reflexivity. Qed.

Lemma height_internal w (l r : handle A) f :
  is_leaf (mk_node w l r f) = false ->
  height (mk_node w l r f) =
    S (Nat.max (match l with None => O | Some l' => height l' end)
               (match r with None => O | Some r' => height r' end)).
Proof. destruct l, r; simpl; intros H; try discriminate; reflexivity. Qed.

(** As long as the depth fits a [size_t], [depth()] is the depth of the
    data model. *)
Lemma depth_height n :
  Z.of_nat (height n) < size_t_modulus -> depth n = Z.of_nat (height n).
Proof.
  induction n as [w l r f IHl IHr] using rope_node_ind.
  destruct (is_leaf (mk_node w l r f)) eqn:Hleaf.
  - destruct l, r; try discriminate. reflexivity.
  - rewrite depth_internal, height_internal by exact Hleaf. intros Hh.
    assert (match l with None => 0 | Some l' => depth l' end =
            Z.of_nat (match l with None => O | Some l' => height l' end)) as ->.
    { destruct l as [l'|]; [|reflexivity]. apply IHl. lia. }
    assert (match r with None => 0 | Some r' => depth r' end =
            Z.of_nat (match r with None => O | Some r' => height r' end)) as ->.
    { destruct r as [r'|]; [|reflexivity]. apply IHr. lia. }
    rewrite !sz_add_small by lia. lia.
Qed.

Lemma is_balanced_value (R : Rope.rope A) n :
  Rope.root_ R = Some n ->
  Rope.is_balanced R =
    Ok (wrap (Fib (Z.to_nat (sz_add (depth n) 2))) <=? Rope.length R).
Proof.
  intros Hroot. unfold Rope.is_balanced. rewrite Hroot.
  rewrite fib_standard by apply wrap_range. reflexivity.
Qed.

(** C8. [is_balanced()] is true for an absent root; for a root [n] it
    tells whether the length is at least the Fibonacci number of index
    [depth(n) + 2], taken in [size_t]; for a tree of depth at most 91 the
    depth is the one of the data model (0 for a leaf, one more than the
    deeper child otherwise) and the Fibonacci number is the standard one,
    [Fib 1 = Fib 2 = 1], [Fib (n + 2) = Fib (n + 1) + Fib n]. *)
Theorem is_balanced_spec (R : Rope.rope A) :
  match Rope.root_ R with
  | None => Rope.is_balanced R = Ok true
  | Some n =>
    Rope.is_balanced R =
      Ok (wrap (Fib (Z.to_nat (sz_add (depth n) 2))) <=? Rope.length R) /\
    Fib 1 = 1 /\ Fib 2 = 1 /\ (forall k, Fib (S (S k)) = Fib (S k) + Fib k) /\
    ((height n <= 91)%nat ->
     depth n = Z.of_nat (height n) /\
     Rope.is_balanced R = Ok (Fib (height n + 2) <=? Rope.length R))
  end.
Proof.
  destruct R as [[n|]]; cbn [Rope.root_]; [|reflexivity].
  pose proof (is_balanced_value (Rope.mk_rope (Some n)) n eq_refl) as Hbal.
  split_and!; try reflexivity; [exact Hbal|].
  intros Hh. unfold size_t_modulus in *.
  assert (depth n = Z.of_nat (height n)) as Hd.
  { apply depth_height. unfold size_t_modulus. lia. }
  split; [exact Hd|].
  rewrite Hbal, Hd, sz_add_small by (unfold size_t_modulus; lia).
  replace (Z.to_nat (Z.of_nat (height n) + 2)) with (height n + 2)%nat by lia.
  rewrite wrap_small by (apply Fib_fits; lia). reflexivity.
Qed.
End BalanceCriterion.

Lemma is_balanced_spec_witness :
  Node.depth some_text_root = 1 /\ Rope.is_balanced some_text = Ok (Fib 3 <=? 8).
Proof.
  pose proof (is_balanced_spec some_text) as H. simpl in H.
  destruct H as (_ & _ & _ & _ & H). apply H. vm_compute. lia.
Defined.


(** ** Indexed access *)

Section Access.
Context {A : Type}.
Import Node.
Implicit Types (n : rope_node A) (nul : A).

Lemma getCharByIndex_leaf nul w f index :
  getCharByIndex nul (mk_node w None None f) index =
    if w <=? index then Err OutOfRange else str_index nul f index.
Proof. reflexivity. Qed.

Lemma getCharByIndex_internal nul w (l r : handle A) f index :
  is_leaf (mk_node w l r f) = false ->
  getCharByIndex nul (mk_node w l r f) index =
    if index <? w then
      match l with
      | None => Err NullDeref
      | Some l' => getCharByIndex nul l' index
      end
    else
      match r with
      | None => Err NullDeref
      | Some r' => getCharByIndex nul r' (sz_sub index w)
      end.
Proof. destruct l, r; simpl; intros H; try discriminate; reflexivity. Qed.

(** The accessor of the spec is the checked accessor of [node.hpp]. *)
Lemma getCharByIndex_safe nul n index :
  getCharByIndex nul n index = get_item_safe nul n index.
Proof.
  revert index. induction n as [w l r f IHl IHr] using rope_node_ind. intros index.
  destruct l as [l'|], r as [r'|]; simpl in *;
    repeat match goal with |- context [if ?c then _ else _] => destruct c end;
    auto.
Qed.

(** The unchecked accessor does not throw one past the end of a leaf. *)
Lemma get_item_past_end nul f : get_item nul (leaf f) (size f) = Ok nul.
Proof.
  simpl. unfold str_index. rewrite Z.ltb_irrefl, Z.eqb_refl. reflexivity.
Qed.

Lemma str_index_in nul (f : cont_type A) index :
  0 <= index < size f ->
  exists c, f !! Z.to_nat index = Some c /\ str_index nul f index = Ok c.
Proof.
  intros H. unfold str_index.
  destruct (Z.ltb_spec index (size f)) as [_|]; [|lia].
  destruct (lookup_lt_is_Some_2 f (Z.to_nat index)) as [c Hc].
  { unfold size in H. lia. }
  exists c. rewrite Hc. auto.
Qed.

Lemma getCharByIndex_spec nul n :
  weights_ok n -> representable n ->
  forall index, 0 <= index < size_t_modulus ->
  (index < size (tree_to_string n) ->
   exists c, tree_to_string n !! Z.to_nat index = Some c /\
             getCharByIndex nul n index = Ok c) /\
  (size (tree_to_string n) <= index -> right_spine n ->
   getCharByIndex nul n index = Err OutOfRange).
Proof.
  induction n as [w l r f IHl IHr] using rope_node_ind.
  intros Hw Hrep index Hindex.
  destruct l as [l'|].
  - pose proof (representable_left _ _ _ _ _ eq_refl Hrep) as Hrepl.
    unfold representable in Hrep, Hrepl.
    rewrite tree_to_string_internal in * by reflexivity.
    rewrite getCharByIndex_internal by reflexivity.
    simpl in Hw. destruct Hw as (Hwl & Hweight & Hwr).
    cbn [handle_string] in *. rewrite size_app in *.
    pose proof (size_nonneg (tree_to_string l')) as Hl0.
    pose proof (size_nonneg (handle_string r)) as Hr0.
    simpl in IHl. subst w.
    destruct (Z.ltb_spec index (size (tree_to_string l'))) as [Hlt|Hge].
    + split; [|lia]. intros _.
      destruct (IHl Hwl Hrepl index Hindex) as [(c & Hc & Hget) _]; [exact Hlt|].
      exists c. split; [|exact Hget].
      rewrite lookup_app_l by (unfold size in Hlt; lia). exact Hc.
    + rewrite sz_sub_small by lia.
      destruct r as [r'|]; cbn [handle_string] in *.
      * simpl in IHr, Hwr.
        destruct (IHr Hwr ltac:(unfold representable; lia)
                    (index - size (tree_to_string l')) ltac:(lia)) as [Hin Hout].
        split.
        -- intros Hlt. destruct Hin as (c & Hc & Hget); [lia|].
           exists c. split; [|exact Hget].
           rewrite lookup_app_r by (unfold size in Hge; lia).
           rewrite <- Hc. f_equal. unfold size. lia.
        -- intros Hpast Hsp. apply Hout; [lia|exact Hsp].
      * change (size (@nil A)) with 0 in *.
        split; [lia|]. intros _ Hsp. simpl in Hsp. contradiction.
  - destruct r as [r'|]; simpl in Hw; [contradiction|].
    rewrite getCharByIndex_leaf. simpl tree_to_string. subst w.
    split.
    + intros Hlt. destruct (Z.leb_spec (size f) index) as [|_]; [lia|].
      apply str_index_in. lia.
    + intros Hpast _. destruct (Z.leb_spec (size f) index) as [_|]; [reflexivity|lia].
Qed.

Lemma rope_length_ok (R : Rope.rope A) :
  rope_ok R -> Rope.length R = size (Rope.to_string R).
Proof.
  intros (n & Hroot & Hw & _ & Hrep). unfold Rope.length, Rope.to_string.
  rewrite Hroot. apply length_weights; assumption.
Qed.

(** C4. With the accessor as the spec gives it (the checked accessor of
    the node), [at(index)] on a rope with an absent root, or in the state
    the public operations leave a rope in, throws exactly when
    [index >= length()], and returns the element at [index] otherwise; so
    [at(length())] throws and [at(length() - 1)] returns the last element
    of a rope that is not empty. *)
Theorem at_out_of_range nul (R : Rope.rope A) index :
  Rope.root_ R = None \/ rope_ok R ->
  0 <= index < size_t_modulus ->
  (Rope.at_ nul R index = Err OutOfRange <-> Rope.length R <= index) /\
  (if Rope.length R <=? index then Rope.at_ nul R index = Err OutOfRange
   else exists c, Rope.to_string R !! Z.to_nat index = Some c /\
                  Rope.at_ nul R index = Ok c) /\
  Rope.at_ nul R (Rope.length R) = Err OutOfRange /\
  (if 0 <? Rope.length R then
     exists c, last (Rope.to_string R) = Some c /\
               Rope.at_ nul R (Rope.length R - 1) = Ok c
   else True).
Proof.
  intros [Hnone|Hok] Hindex.
  - unfold Rope.at_, Rope.length. rewrite Hnone. simpl.
    destruct (Z.leb_spec 0 index) as [_|]; [|lia].
    split_and!; auto. split; intros; [lia|reflexivity].
  - rewrite (rope_length_ok R Hok).
    destruct Hok as (n & Hroot & Hw & Hsp & Hrep).
    unfold Rope.at_, Rope.to_string. rewrite Hroot.
    pose proof (size_nonneg (tree_to_string n)) as H0.
    unfold representable in Hrep.
    assert (forall i, 0 <= i < size_t_modulus ->
              if size (tree_to_string n) <=? i
              then getCharByIndex nul n i = Err OutOfRange
              else exists c, tree_to_string n !! Z.to_nat i = Some c /\
                             getCharByIndex nul n i = Ok c) as Hat.
    { intros i Hi. destruct (getCharByIndex_spec nul n Hw Hrep i Hi) as [Hin Hout].
      destruct (Z.leb_spec (size (tree_to_string n)) i); [apply Hout|apply Hin]; auto. }
    split_and!.
    + specialize (Hat index Hindex).
      destruct (Z.leb_spec (size (tree_to_string n)) index).
      * split; auto.
      * destruct Hat as (c & _ & ->). split; [discriminate|lia].
    + apply Hat, Hindex.
    + specialize (Hat (size (tree_to_string n)) ltac:(lia)).
      rewrite Z.leb_refl in Hat. exact Hat.
    + destruct (Z.ltb_spec 0 (size (tree_to_string n))) as [Hpos|]; [|exact I].
      specialize (Hat (size (tree_to_string n) - 1) ltac:(lia)).
      destruct (Z.leb_spec (size (tree_to_string n)) (size (tree_to_string n) - 1));
        [lia|].
      destruct Hat as (c & Hc & Hget). exists c. split; [|exact Hget].
      rewrite last_lookup, <- Hc. f_equal. unfold size. lia.
Qed.
End Access.

Lemma some_text_ok : rope_ok some_text.
Proof.
  exists some_text_root. vm_compute. repeat split; reflexivity.
Defined.

Lemma at_out_of_range_witness :
  (Rope.at_ "000"%char some_text 8 = Err OutOfRange <-> Rope.length some_text <= 8) /\
  (if Rope.length some_text <=? 8 then Rope.at_ "000"%char some_text 8 = Err OutOfRange
   else exists c, Rope.to_string some_text !! Z.to_nat 8 = Some c /\
                  Rope.at_ "000"%char some_text 8 = Ok c) /\
  Rope.at_ "000"%char some_text (Rope.length some_text) = Err OutOfRange /\
  (if 0 <? Rope.length some_text then
     exists c, last (Rope.to_string some_text) = Some c /\
               Rope.at_ "000"%char some_text (Rope.length some_text - 1) = Ok c
   else True).
Proof.
  apply (at_out_of_range "000"%char some_text 8).
  - right. exact some_text_ok.
  - vm_compute. split; [discriminate|reflexivity].
Defined.

(** ** Behaviour at particular inputs *)

(** C10. The default-constructed rope has a root, a leaf with an empty
    fragment; its length is 0 and [fib(2)] is 1, so [is_balanced()] is
    false; [balance()] then builds an empty interval list and an empty
    slot vector, takes [intervals.size() - 1] to the largest [size_t],
    skips the only (empty) leaf, and reads slot 0 of the empty vector. *)
Theorem balance_empty_rope (A : Type) :
  Rope.root_ (@Rope.empty A) = Some (Node.leaf []) /\
  Node.is_leaf (Node.leaf (@nil A)) = true /\
  Node.fragment_ (Node.leaf (@nil A)) = [] /\
  Rope.of_string (@nil A) = Rope.empty /\
  Rope.length (@Rope.empty A) = 0 /\
  fib 2 = Ok 1 /\
  Rope.is_balanced (@Rope.empty A) = Ok false /\
  build_fib_list (Rope.length (@Rope.empty A)) = Ok [] /\
  sz_sub (size (@nil Z)) 1 = size_t_modulus - 1 /\
  Rope.insert_leaves (Node.getLeaves (Node.leaf (@nil A)) []) []
    (sz_sub (size (@nil Z)) 1) [] 0 = Ok ([], 0) /\
  vec_get (@nil (Node.handle A)) 0 = Err VectorIndex /\
  Rope.balance (@Rope.empty A) = (Err VectorIndex, Rope.empty).
Proof. repeat split; vm_compute; reflexivity. Qed.

(** C2, at the input of the scenario: on the rope built from "some" by
    appending "text", [substr(2, 4)] returns "some".  The left leaf is
    asked for 4 elements from offset 2 and returns its whole fragment; the
    right leaf is asked for 2 elements from offset 4, the weight of the
    node above it, and returns nothing. *)
Theorem substr_some_text :
  Rope.to_string some_text = chars "sometext" /\
  Rope.length some_text = 8 /\
  Rope.substr some_text 2 4 = Ok (chars "some") /\
  Node.substr (Node.leaf (chars "some")) 2 4 = Ok (chars "some") /\
  Node.substr (Node.leaf (chars "text")) 4 2 = Ok [].
Proof. repeat split; vm_compute; reflexivity. Qed.

(** C3, at an input: the rope built from "some" by appending "text"
    satisfies the invariants; after [insert(2, "x")] its tree holds the
    node that [split] cut down to its left child, with a null right
    pointer. *)
Theorem insert_makes_single_child :
  Rope.root_ some_text = Some some_text_root /\
  well_formed some_text_root /\
  exists n,
    Rope.insert_string some_text 2 (chars "x") = (Ok tt, Rope.mk_rope (Some n)) /\
    Rope.to_string (Rope.mk_rope (Some n)) = chars "soxmetext" /\
    has_single_child n = true /\
    (Node.left_ n ≫= Node.left_) =
      Some (Node.mk_node 2 (Some (Node.leaf (chars "so"))) None []) /\
    ~ well_formed n.
Proof.
  split; [reflexivity|]. split; [vm_compute; repeat split; reflexivity|].
  eexists. split; [vm_compute; reflexivity|].
  split; [vm_compute; reflexivity|].
  split; [vm_compute; reflexivity|].
  split; [vm_compute; reflexivity|].
  intros H. vm_compute in H. tauto.
Qed.

(** C7, at two inputs.  On "some" followed by "txt", [substr(2, 4)] is in
    range and throws [std::out_of_range] from inside the tree.  On "abc",
    [erase(1, SIZE_MAX)] passes the range check, because [start + len]
    wraps to 0, and throws after the root has been moved out: the rope is
    left with a null root. *)
Theorem range_checks_at_inputs :
  Rope.length some_txt = 7 /\
  Rope.substr some_txt 2 4 = Err OutOfRange /\
  Rope.length abc = 3 /\
  sz_add 1 (size_t_modulus - 1) = 0 /\
  Rope.erase abc 1 (size_t_modulus - 1) = (Err OutOfRange, Rope.mk_rope None) /\
  Rope.to_string (Rope.erase abc 1 (size_t_modulus - 1)).2 = [] /\
  Rope.to_string abc = chars "abc".
Proof. repeat split; vm_compute; reflexivity. Qed.

(** ** The mutating operations *)

Section Mutation.
Context {A : Type}.
Import Node.
Implicit Types (n : rope_node A) (R S : Rope.rope A).

Lemma of_string_ok (str : cont_type A) :
  size str < size_t_modulus -> rope_ok (Rope.of_string str).
Proof.
  intros H. exists (leaf str). split_and!; try reflexivity. exact H.
Qed.

Lemma copy_rope_root S n :
  Rope.root_ S = Some n -> Rope.copy_rope S = Ok (Rope.mk_rope (Some n)).
Proof. intros H. unfold Rope.copy_rope. rewrite H. simpl. rewrite !copy_id. reflexivity. Qed.

Lemma concat_some (a : rope_node A) (r : handle A) :
  concat (Some a) r = Ok (mk_node (length a) (Some a) r []).
Proof. reflexivity. Qed.

Lemma weights_ok_joined (a : rope_node A) (r : handle A) :
  weights_ok a -> representable a -> handle_all weights_ok r ->
  weights_ok (mk_node (length a) (Some a) r []).
Proof.
  intros Hwa Hrep Hr. simpl. rewrite (length_weights a Hwa Hrep).
  destruct r; auto.
Qed.

(** A rejected [insert] or [erase] leaves the rope as it was. *)
Lemma insert_rejected R i S :
  Rope.length R < i -> Rope.insert R i S = (Err OutOfRange, R).
Proof.
  intros H. unfold Rope.insert.
  destruct (Z.ltb_spec (Rope.length R) i); [reflexivity|lia].
Qed.

Lemma erase_rejected R start len :
  Rope.length R < start \/ Rope.length R < sz_add start len ->
  Rope.erase R start len = (Err OutOfRange, R).
Proof.
  intros H. unfold Rope.erase.
  destruct (Z.ltb_spec (Rope.length R) start),
           (Z.ltb_spec (Rope.length R) (sz_add start len)); try reflexivity; lia.
Qed.

Lemma insert_spec R i S :
  rope_ok R -> rope_ok S -> 0 <= i <= Rope.length R ->
  Rope.length R + Rope.length S < size_t_modulus ->
  exists R1,
    Rope.insert R i S = (Ok tt, R1) /\ rope_ok R1 /\
    Rope.to_string R1 =
      take (Z.to_nat i) (Rope.to_string R) ++ Rope.to_string S ++
      drop (Z.to_nat i) (Rope.to_string R).
Proof.
  intros HR HS Hi Hfit.
  rewrite (rope_length_ok R HR), (rope_length_ok S HS) in *.
  destruct HR as (r & Hroot & Hw & Hsp & Hrep).
  destruct HS as (s & Hroots & Hws & Hsps & Hreps).
  unfold Rope.to_string in *. rewrite Hroot, Hroots in *.
  unfold Rope.insert, Rope.length. rewrite Hroot.
  rewrite (length_weights r Hw Hrep).
  destruct (Z.ltb_spec (size (tree_to_string r)) i) as [|_]; [lia|].
  rewrite (copy_rope_root S s Hroots). cbn [split Rope.root_].
  destruct (split_node_spec r Hw Hrep i Hi (fun _ => Hsp))
    as (a & b & -> & Ha & Hb & Hwa & Hwb & Hspb).
  rewrite bind_ok. cbn [fst snd].
  pose proof (take_size_length r i Hw Hrep Hi a Hwa Ha) as Hla.
  rewrite !concat_some, bind_ok, concat_some.
  eexists. split; [reflexivity|].
  assert (tree_to_string (mk_node (length a) (Some a) (Some s) []) =
          take (Z.to_nat i) (tree_to_string r) ++ tree_to_string s) as Htc.
  { rewrite tree_to_string_internal by reflexivity. simpl. rewrite Ha. reflexivity. }
  assert (size (take (Z.to_nat i) (tree_to_string r)) = i) as Hst
    by (apply size_take; lia).
  assert (size (drop (Z.to_nat i) (tree_to_string r)) = size (tree_to_string r) - i)
    as Hsd by (apply size_drop; lia).
  pose proof (size_nonneg (tree_to_string s)) as Hs0.
  assert (weights_ok (mk_node (length a) (Some a) (Some s) [])) as Hwtc.
  { apply weights_ok_joined; [exact Hwa| |exact Hws].
    unfold representable. rewrite Ha, Hst. unfold representable in Hrep. lia. }
  assert (length (mk_node (length a) (Some a) (Some s) []) =
          i + size (tree_to_string s)) as Hltc.
  { rewrite length_weights; [rewrite Htc, size_app, Hst; reflexivity|exact Hwtc|].
    unfold representable. rewrite Htc, size_app, Hst. lia. }
  split.
  - eexists. split; [reflexivity|].
    split_and!.
    + apply weights_ok_joined; [exact Hwtc| |exact Hwb].
      unfold representable. rewrite Htc, size_app, Hst. lia.
    + simpl. apply Hspb, Hsp.
    + unfold representable.
      rewrite tree_to_string_internal by reflexivity. cbn [handle_string].
      rewrite Htc, Hb, !size_app, Hst, Hsd. lia.
  - cbn [Rope.root_].
    rewrite tree_to_string_internal by reflexivity. cbn [handle_string].
    rewrite Htc, Hb, <- app_assoc. reflexivity.
Qed.

Lemma erase_spec R start len :
  rope_ok R -> 0 <= start -> 0 <= len -> start + len <= Rope.length R ->
  exists R1,
    Rope.erase R start len = (Ok tt, R1) /\ rope_ok R1 /\
    Rope.to_string R1 =
      take (Z.to_nat start) (Rope.to_string R) ++
      drop (Z.to_nat (start + len)) (Rope.to_string R).
Proof.
  intros HR Hstart Hlen Hrange.
  rewrite (rope_length_ok R HR) in *.
  destruct HR as (r & Hroot & Hw & Hsp & Hrep).
  unfold Rope.to_string in *. rewrite Hroot in *.
  unfold Rope.erase, Rope.length. rewrite Hroot.
  rewrite (length_weights r Hw Hrep).
  pose proof Hrep as Hrep'. unfold representable in Hrep'.
  rewrite sz_add_small by lia.
  destruct (Z.ltb_spec (size (tree_to_string r)) start) as [|_]; [lia|].
  destruct (Z.ltb_spec (size (tree_to_string r)) (start + len)) as [|_]; [lia|].
  cbn [orb split].
  destruct (split_node_spec r Hw Hrep start ltac:(lia) (fun _ => Hsp))
    as (a & b & -> & Ha & Hb & Hwa & Hwb & Hspb).
  rewrite bind_ok. cbn [fst snd split].
  assert (size (tree_to_string b) = size (tree_to_string r) - start) as Hsb
    by (rewrite Hb; apply size_drop; lia).
  assert (representable b) as Hrepb by (unfold representable; lia).
  destruct (split_node_spec b Hwb Hrepb len ltac:(lia) (fun _ => Hspb Hsp))
    as (m & c & -> & Hm & Hc & Hwm & Hwc & Hspc).
  rewrite bind_ok. cbn [fst snd]. rewrite concat_some.
  eexists. split; [reflexivity|].
  pose proof (take_size_length r start Hw Hrep ltac:(lia) a Hwa Ha) as Hla.
  assert (size (tree_to_string a) = start) as Hsa
    by (rewrite Ha; apply size_take; lia).
  assert (tree_to_string c = drop (Z.to_nat (start + len)) (tree_to_string r)) as Hc'.
  { rewrite Hc, Hb, drop_drop. f_equal. lia. }
  assert (size (tree_to_string c) = size (tree_to_string r) - (start + len)) as Hsc
    by (rewrite Hc'; apply size_drop; lia).
  split.
  - eexists. split; [reflexivity|]. split_and!.
    + apply weights_ok_joined; [exact Hwa| |exact Hwc].
      unfold representable. lia.
    + simpl. apply Hspc, Hspb, Hsp.
    + unfold representable.
      rewrite tree_to_string_internal by reflexivity. cbn [handle_string].
      rewrite size_app, Hsa, Hsc. lia.
  - cbn [Rope.root_].
    rewrite tree_to_string_internal by reflexivity. cbn [handle_string].
    rewrite Ha, Hc'. reflexivity.
Qed.

Lemma append_spec R S :
  rope_ok R -> rope_ok S ->
  Rope.length R + Rope.length S < size_t_modulus ->
  exists R1,
    Rope.append R S = (Ok tt, R1) /\ rope_ok R1 /\
    Rope.to_string R1 = Rope.to_string R ++ Rope.to_string S.
Proof.
  intros HR HS Hfit.
  rewrite (rope_length_ok R HR), (rope_length_ok S HS) in *.
  destruct HR as (r & Hroot & Hw & Hsp & Hrep).
  destruct HS as (s & Hroots & Hws & Hsps & Hreps).
  unfold Rope.to_string in *. rewrite Hroot, Hroots in *.
  unfold Rope.append. rewrite (copy_rope_root S s Hroots), Hroot.
  cbn [Rope.root_]. rewrite concat_some.
  eexists. split; [reflexivity|]. split; [|reflexivity].
  eexists. split; [reflexivity|]. split_and!.
  - apply weights_ok_joined; assumption.
  - exact Hsps.
  - unfold representable.
    rewrite tree_to_string_internal by reflexivity. cbn [handle_string].
    rewrite size_app. lia.
Qed.

(** X25. On ropes in the state the public operations leave them in (a
    root that is not null, right weights, a rightmost path that ends in a
    leaf), with [i <= length(R)] and a combined length that fits a
    [size_t]: [insert(i, S)] succeeds and gives the first [i] elements of
    [R], then [S], then the rest of [R]; [erase(i, length(S))] on the
    result gives the string of [R] back. *)
Theorem insert_erase_inverse R S i :
  rope_ok R -> rope_ok S -> 0 <= i <= Rope.length R ->
  Rope.length R + Rope.length S < size_t_modulus ->
  exists R1,
    Rope.insert R i S = (Ok tt, R1) /\
    Rope.to_string R1 =
      take (Z.to_nat i) (Rope.to_string R) ++ Rope.to_string S ++
      drop (Z.to_nat i) (Rope.to_string R) /\
    exists R2,
      Rope.erase R1 i (Rope.length S) = (Ok tt, R2) /\
      Rope.to_string R2 = Rope.to_string R.
Proof.
  intros HR HS Hi Hfit.
  destruct (insert_spec R i S HR HS Hi Hfit) as (R1 & Hins & HR1 & Hstr1).
  exists R1. split; [exact Hins|]. split; [exact Hstr1|].
  pose proof (rope_length_ok R HR) as HlR.
  pose proof (rope_length_ok S HS) as HlS.
  pose proof (rope_length_ok R1 HR1) as HlR1.
  pose proof (size_nonneg (Rope.to_string S)) as HS0.
  assert (size (take (Z.to_nat i) (Rope.to_string R)) = i) as Hst
    by (apply size_take; lia).
  assert (size (Rope.to_string R1) = Rope.length R + Rope.length S) as Hsize.
  { rewrite Hstr1, !size_app, Hst, size_drop by lia. lia. }
  destruct (erase_spec R1 i (Rope.length S) HR1 ltac:(lia) ltac:(lia) ltac:(lia))
    as (R2 & Her & _ & Hstr2).
  exists R2. split; [exact Her|].
  rewrite Hstr2, Hstr1.
  set (X := take (Z.to_nat i) (Rope.to_string R)) in *.
  set (D := drop (Z.to_nat i) (Rope.to_string R)) in *.
  assert (take (Z.to_nat i) (X ++ Rope.to_string S ++ D) = X) as ->.
  { rewrite take_app_Z by lia. apply take_ge. unfold size in Hst. lia. }
  assert (drop (Z.to_nat (i + Rope.length S)) (X ++ Rope.to_string S ++ D) = D) as ->.
  { rewrite drop_app_Z_ge by lia. rewrite drop_app_Z_ge by lia.
    replace (i + Rope.length S - size X - size (Rope.to_string S)) with 0 by lia.
    reflexivity. }
  apply take_drop.
Qed.
End Mutation.

Lemma insert_erase_inverse_witness :
  exists R1,
    Rope.insert some_text 4 (Rope.of_string (chars "!!")) = (Ok tt, R1) /\
    Rope.to_string R1 =
      take (Z.to_nat 4) (Rope.to_string some_text) ++
      Rope.to_string (Rope.of_string (chars "!!")) ++
      drop (Z.to_nat 4) (Rope.to_string some_text) /\
    exists R2,
      Rope.erase R1 4 (Rope.length (Rope.of_string (chars "!!"))) = (Ok tt, R2) /\
      Rope.to_string R2 = Rope.to_string some_text.
Proof.
  apply (insert_erase_inverse some_text (Rope.of_string (chars "!!")) 4).
  - exact some_text_ok.
  - apply of_string_ok. vm_compute. reflexivity.
  - vm_compute. split; discriminate.
  - vm_compute. reflexivity.
Defined.

(** C6, at the ropes that break it.  The header gives the rope with a
    null root pointer as a rope that represents the empty string, and
    [to_string()], [length()], [at()] and [is_balanced()] test for it;
    [erase(1, SIZE_MAX)] on "abc" leaves such a rope behind.  Its length
    is 0, so index 0 passes the check of [insert], but [insert(0, S)]
    then hands the null root to [split], which dereferences it: the
    insertion does not succeed, for any [S].  With the null-root rope as
    the rope to insert, the copy constructor dereferences the null
    pointer. *)
Theorem insert_into_null_root :
  Rope.erase abc 1 (size_t_modulus - 1) = (Err OutOfRange, Rope.mk_rope None) /\
  Rope.to_string (Rope.mk_rope (@None (Node.rope_node ascii))) = [] /\
  Rope.length (Rope.mk_rope (@None (Node.rope_node ascii))) = 0 /\
  Rope.insert (Rope.mk_rope None) 0 (Rope.of_string (chars "x")) =
    (Err NullDeref, Rope.mk_rope None) /\
  (forall S : Rope.rope ascii,
     Rope.insert (Rope.mk_rope None) 0 S = (Err NullDeref, Rope.mk_rope None)) /\
  Rope.length some_text = 8 /\
  Rope.insert some_text 0 (Rope.mk_rope None) = (Err NullDeref, some_text).
Proof.
  split_and!; try (vm_compute; reflexivity).
  intros [[s|]]; reflexivity.
Qed.

(** ** Balancing: the interval list *)

Lemma Fib_46 : Fib 46 = 1836311903.
Proof. rewrite Fib_fst. vm_compute. reflexivity. Qed.

Lemma Fib_lt_index a b : Fib a < Fib b -> (a < b)%nat.
Proof.
  intros H. destruct (Nat.lt_ge_cases a b) as [Hlt|Hge]; [exact Hlt|].
  pose proof (Fib_mono b a Hge). lia.
Qed.

Lemma Fib_pos n : (1 <= n)%nat -> 1 <= Fib n.
Proof. intros H. apply (Fib_mono 1 n H). Qed.

Lemma fib_intervals_length m : List.length (fib_intervals m) = m.
Proof. unfold fib_intervals. rewrite length_map, length_seq. reflexivity. Qed.

Lemma fib_intervals_snoc j : fib_intervals (S j) = fib_intervals j ++ [Fib (j + 2)].
Proof. unfold fib_intervals. rewrite seq_S, map_app. reflexivity. Qed.

Lemma fib_intervals_lookup m i :
  (i < m)%nat -> fib_intervals m !! i = Some (Fib (i + 2)).
Proof.
  intros H. unfold fib_intervals. rewrite list_lookup_fmap.
  rewrite lookup_seq_lt by exact H. reflexivity.
Qed.

Lemma build_fib_loop_unfold fuel len a b intervals :
  build_fib_loop (S fuel) len a b intervals =
    if a <=? len then
      if int_max <? a + b then Err IntOverflow
      else build_fib_loop fuel len b (a + b)
             (if 0 <? a then intervals ++ [b] else intervals)
    else Ok intervals.
Proof. reflexivity. Qed.

Lemma build_fib_loop_spec len :
  1 <= len < Fib 45 ->
  forall fuel j, (47 <= j + fuel)%nat -> Fib (j - 1) <= len ->
  exists m,
    build_fib_loop fuel len (Fib j) (Fib (S j)) (fib_intervals (j - 1)) =
      Ok (fib_intervals m) /\
    Fib m <= len < Fib (S m).
Proof.
  intros Hlen fuel. induction fuel as [|fuel IH]; intros j Hfuel Hprev.
  - pose proof (Fib_mono 45 (j - 1) ltac:(lia)). lia.
  - rewrite build_fib_loop_unfold.
    destruct (Z.leb_spec (Fib j) len) as [Hle|Hgt].
    + assert (j < 45)%nat as Hj by (apply Fib_lt_index; lia).
      pose proof (Fib_mono (S (S j)) 46 ltac:(lia)) as H46.
      rewrite Fib_46, Fib_step in H46.
      destruct (Z.ltb_spec int_max (Fib j + Fib (S j))) as [Hov|_];
        [unfold int_max in Hov; lia|].
      replace (Fib j + Fib (S j)) with (Fib (S (S j))) by (rewrite Fib_step; lia).
      replace (if 0 <? Fib j then fib_intervals (j - 1) ++ [Fib (S j)]
               else fib_intervals (j - 1))
        with (fib_intervals (S j - 1)).
      { apply IH; [lia|]. replace (S j - 1)%nat with j by lia. exact Hle. }
      destruct j as [|j]; [reflexivity|].
      pose proof (Fib_pos (S j) ltac:(lia)).
      destruct (Z.ltb_spec 0 (Fib (S j))); [|lia].
      replace (S (S j) - 1)%nat with (S j) by lia.
      replace (S j - 1)%nat with j by lia.
      rewrite fib_intervals_snoc. do 3 f_equal. lia.
    + exists (j - 1)%nat. split; [reflexivity|].
      destruct j as [|j]; [simpl in Hgt; lia|].
      replace (S j - 1)%nat with j in * by lia. lia.
Qed.

Lemma build_fib_list_spec len :
  1 <= len < Fib 45 ->
  exists m, (2 <= m)%nat /\ build_fib_list len = Ok (fib_intervals m) /\
            Fib m <= len < Fib (S m).
Proof.
  intros Hlen.
  destruct (build_fib_loop_spec len Hlen 64 0 ltac:(lia) ltac:(simpl; lia))
    as (m & Hrun & Hm).
  exists m. split; [|split; [exact Hrun|exact Hm]].
  assert (2 < S m)%nat; [|lia].
  apply Fib_lt_index. change (Fib 2) with 1. lia.
Qed.

(** ** Balancing: leaves and slots *)

Section Slots.
Context {A : Type}.
Import Node.
Implicit Types (n s acc : rope_node A) (nodes : list (handle A)).

Lemma getLeaves_app n : forall v, getLeaves n v = v ++ leaves n.
Proof.
  unfold leaves.
  induction n as [w l r f IHl IHr] using rope_node_ind. intros v.
  destruct l as [l'|], r as [r'|]; simpl in *.
  - rewrite (IHr (getLeaves l' v)), (IHr (getLeaves l' [])), (IHl v).
    rewrite app_assoc. reflexivity.
  - apply IHl.
  - apply IHr.
  - reflexivity.
Qed.

Lemma leaves_internal w (l r : handle A) f :
  is_leaf (mk_node w l r f) = false ->
  leaves (mk_node w l r f) = handle_leaves l ++ handle_leaves r.
Proof.
  unfold leaves. destruct l as [l'|], r as [r'|]; simpl; intros H; try discriminate.
  - apply getLeaves_app.
  - rewrite app_nil_r. reflexivity.
  - reflexivity.
Qed.

Lemma leaves_spec n :
  weights_ok n ->
  Forall leaf_ok (leaves n) /\
  List.concat (map fragment_ (leaves n)) = tree_to_string n.
Proof.
  induction n as [w l r f IHl IHr] using rope_node_ind. intros Hw.
  destruct l as [l'|].
  - rewrite leaves_internal, tree_to_string_internal by reflexivity.
    simpl in Hw. destruct Hw as (Hwl & _ & Hwr).
    destruct (IHl Hwl) as [Hfl Hcl]. cbn [handle_leaves handle_string].
    destruct r as [r'|]; cbn [handle_leaves handle_string].
    + destruct (IHr Hwr) as [Hfr Hcr].
      split; [apply Forall_app; auto|].
      rewrite map_app, concat_app, Hcl, Hcr. reflexivity.
    + rewrite !app_nil_r. auto.
  - destruct r as [r'|]; simpl in Hw; [contradiction|].
    split; [|simpl; apply app_nil_r].
    repeat constructor. exact Hw.
Qed.

Lemma leaf_ok_facts (lf : rope_node A) :
  leaf_ok lf ->
  length lf = size (fragment_ lf) /\ tree_to_string lf = fragment_ lf /\
  weights_ok lf /\ right_spine lf.
Proof.
  intros [Hleaf Hweight]. destruct lf as [w [l|] [r|] f]; try discriminate.
  simpl in *. auto.
Qed.

Lemma vec_get_lookup {X : Type} (v : list X) (i : nat) x :
  v !! i = Some x -> vec_get v (Z.of_nat i) = Ok x.
Proof.
  intros H. pose proof (lookup_lt_Some _ _ _ H) as Hlt. unfold vec_get.
  destruct (Z.leb_spec 0 (Z.of_nat i)); [|lia].
  destruct (Z.ltb_spec (Z.of_nat i) (Z.of_nat (List.length v))); [|lia].
  simpl. rewrite Nat2Z.id, H. reflexivity.
Qed.

Lemma vec_set_insert {X : Type} (v : list X) (i : nat) x :
  (i < List.length v)%nat -> vec_set v (Z.of_nat i) x = Ok (<[i := x]> v).
Proof.
  intros Hlt. unfold vec_set.
  destruct (Z.leb_spec 0 (Z.of_nat i)); [|lia].
  destruct (Z.ltb_spec (Z.of_nat i) (Z.of_nat (List.length v))); [|lia].
  simpl. rewrite Nat2Z.id. reflexivity.
Qed.

Lemma slots_string_app nodes1 nodes2 :
  slots_string (nodes1 ++ nodes2) = slots_string nodes2 ++ slots_string nodes1.
Proof.
  unfold slots_string. induction nodes1 as [|h nodes1 IH]; simpl.
  - rewrite app_nil_r. reflexivity.
  - rewrite IH, app_assoc. reflexivity.
Qed.

Lemma slots_string_empty nodes :
  (forall j s, nodes !! j = Some (Some s) -> False) -> slots_string nodes = [].
Proof.
  unfold slots_string. induction nodes as [|h nodes IH]; intros H; [reflexivity|].
  simpl. rewrite IH; [|intros j s Hj; exact (H (S j) s Hj)].
  destruct h as [s|]; [|reflexivity].
  exfalso. exact (H O s eq_refl).
Qed.

Lemma slots_string_replicate k : slots_string (replicate k (@None (rope_node A))) = [].
Proof.
  apply slots_string_empty. intros j s Hj.
  apply lookup_replicate in Hj. destruct Hj as [Hj _]. discriminate.
Qed.

Lemma slots_string_snoc nodes (h : handle A) :
  slots_string (nodes ++ [h]) = handle_string h ++ slots_string nodes.
Proof. rewrite slots_string_app. unfold slots_string at 1. reflexivity. Qed.

(** With nothing below slot [i], the slot comes last. *)
Lemma slots_string_at nodes i h :
  lower_empty nodes i -> nodes !! i = Some h ->
  slots_string nodes = slots_string (drop (S i) nodes) ++ handle_string h.
Proof.
  intros Hlow Hi.
  rewrite <- (take_drop_middle nodes i h Hi) at 1.
  rewrite slots_string_app.
  change (h :: drop (S i) nodes) with ([h] ++ drop (S i) nodes).
  rewrite slots_string_app.
  rewrite (slots_string_empty (take i nodes)).
  - rewrite app_nil_r. reflexivity.
  - intros j s Hj. apply lookup_take_Some in Hj. destruct Hj as [Hj Hlt].
    rewrite (Hlow j Hlt) in Hj. discriminate.
Qed.

Lemma slots_string_set nodes i h h' :
  lower_empty nodes i -> nodes !! i = Some h ->
  slots_string (<[i := h']> nodes) =
    slots_string (drop (S i) nodes) ++ handle_string h'.
Proof.
  intros Hlow Hi. pose proof (lookup_lt_Some _ _ _ Hi) as Hlt.
  rewrite (slots_string_at (<[i := h']> nodes) i h').
  - rewrite drop_insert_lt by lia. reflexivity.
  - intros j Hj. rewrite list_lookup_insert_ne by lia. apply Hlow, Hj.
  - apply list_lookup_insert_eq. exact Hlt.
Qed.

Lemma slots_string_clear nodes i s :
  lower_empty nodes i -> nodes !! i = Some (Some s) ->
  slots_string nodes = slots_string (<[i := None]> nodes) ++ tree_to_string s.
Proof.
  intros Hlow Hi.
  rewrite (slots_string_set nodes i (Some s) None Hlow Hi).
  rewrite (slots_string_at nodes i (Some s) Hlow Hi).
  simpl. rewrite app_nil_r. reflexivity.
Qed.

Lemma slots_string_fill nodes i s :
  lower_empty nodes i -> nodes !! i = Some None ->
  slots_string (<[i := Some s]> nodes) = slots_string nodes ++ tree_to_string s.
Proof.
  intros Hlow Hi.
  rewrite (slots_string_set nodes i None (Some s) Hlow Hi).
  rewrite (slots_string_at nodes i None Hlow Hi).
  simpl. rewrite app_nil_r. reflexivity.
Qed.
End Slots.

(** ** Balancing: the passes over the slots *)

Section Balance.
Context {A : Type}.
Import Node.
Implicit Types (n s acc : rope_node A) (nodes : list (handle A)).

Variables (m : nat) (total : Z).
Hypothesis m_ge_2 : (2 <= m)%nat.
Hypothesis m_fits : Z.of_nat m < size_t_modulus.
Hypothesis total_below : total < Fib (S m).
Hypothesis total_fits : total < size_t_modulus.

Lemma intervals_get i :
  (i < m)%nat -> vec_get (fib_intervals m) (Z.of_nat i) = Ok (Fib (i + 2)).
Proof. intros H. apply vec_get_lookup, fib_intervals_lookup, H. Qed.

Lemma slot_index_bound i x : Fib (i + 2) <= x -> x <= total -> (i + 2 <= m)%nat.
Proof.
  intros H1 H2. assert (i + 2 < S m)%nat; [|lia].
  apply Fib_lt_index. lia.
Qed.

Lemma merge_spec s acc :
  weights_ok s -> weights_ok acc -> right_spine acc ->
  size (tree_to_string s) + size (tree_to_string acc) <= total ->
  exists joined,
    Rope.merge s acc = Ok joined /\
    tree_to_string joined = tree_to_string s ++ tree_to_string acc /\
    weights_ok joined /\ right_spine joined /\
    length joined = size (tree_to_string s) + size (tree_to_string acc).
Proof.
  intros Hws Hwa Hsp Hsize.
  pose proof (size_nonneg (tree_to_string s)).
  pose proof (size_nonneg (tree_to_string acc)).
  unfold Rope.merge. rewrite !copy_id, concat_some.
  eexists. split; [reflexivity|].
  assert (tree_to_string (mk_node (length s) (Some s) (Some acc) []) =
          tree_to_string s ++ tree_to_string acc) as Hstr
    by (rewrite tree_to_string_internal by reflexivity; reflexivity).
  assert (weights_ok (mk_node (length s) (Some s) (Some acc) [])) as Hw.
  { apply weights_ok_joined; [exact Hws| |exact Hwa]. unfold representable. lia. }
  split_and!; [exact Hstr|exact Hw|exact Hsp|].
  rewrite length_weights; [rewrite Hstr, size_app; reflexivity|exact Hw|].
  unfold representable. rewrite Hstr, size_app. lia.
Qed.

Lemma scan_unfold fuel intervals max_i nodes acc len i :
  Rope.scan (S fuel) intervals max_i nodes acc len i =
    if i <? max_i then
      bound ← vec_get intervals (sz_add i 1);
      if bound <=? len then
        slot ← vec_get nodes i;
        st ← match slot with
             | Some s =>
               acc1 ← Rope.merge s acc;
               let len1 := length acc1 in
               bound1 ← vec_get intervals (sz_add i 1);
               if bound1 <=? len1 then
                 nodes1 ← vec_set nodes i None;
                 Ok (nodes1, acc1, len1)
               else Ok (nodes, acc1, len1)
             | None => Ok (nodes, acc, len)
             end;
        Rope.scan fuel intervals max_i (st.1.1) (st.1.2) (st.2) (sz_add i 1)
      else Ok (nodes, acc, len, i)
    else Ok (nodes, acc, len, i).
Proof. reflexivity. Qed.

Lemma lower_empty_step nodes i :
  lower_empty nodes i -> nodes !! i = Some None -> lower_empty nodes (S i).
Proof.
  intros Hlow Hi j Hj. destruct (Nat.eq_dec j i) as [->|Hne]; [exact Hi|].
  apply Hlow. lia.
Qed.

Lemma lower_empty_clear nodes i :
  (i < List.length nodes)%nat -> lower_empty nodes i ->
  lower_empty (<[i := None]> nodes) (S i).
Proof.
  intros Hlt Hlow j Hj. destruct (Nat.eq_dec j i) as [->|Hne].
  - apply list_lookup_insert_eq, Hlt.
  - rewrite list_lookup_insert_ne by lia. apply Hlow. lia.
Qed.

Lemma slots_ok_clear nodes i : slots_ok nodes -> slots_ok (<[i := None]> nodes).
Proof.
  intros Hok j s Hj. destruct (Nat.eq_dec i j) as [->|Hne].
  - rewrite list_lookup_insert in Hj. case_decide; [discriminate|]. eapply Hok, Hj.
  - rewrite list_lookup_insert_ne in Hj by exact Hne. eapply Hok, Hj.
Qed.

Lemma top_slot_clear nodes i cm :
  top_slot nodes i cm -> top_slot (<[i := None]> nodes) (S i) cm.
Proof.
  intros [Hall Htop]. split.
  - intros j s Hj. destruct (Nat.eq_dec i j) as [->|Hne].
    + rewrite list_lookup_insert in Hj. case_decide; [discriminate|].
      pose proof (Hall j s Hj). lia.
    + rewrite list_lookup_insert_ne in Hj by exact Hne.
      pose proof (Hall j s Hj). lia.
  - intros Hlt. destruct (Htop ltac:(lia)) as [s Hs]. exists s.
    rewrite list_lookup_insert_ne by lia. exact Hs.
Qed.

Lemma top_slot_step nodes i cm : top_slot nodes i cm -> top_slot nodes (S i) cm.
Proof.
  intros [Hall Htop]. split.
  - intros j s Hj. pose proof (Hall j s Hj). lia.
  - intros Hlt. apply Htop. lia.
Qed.

(** The inner loop: it stops at a slot whose interval holds the length of
    [acc], with every slot it passed emptied into [acc]. *)
Lemma scan_spec fuel : forall nodes acc i cm,
  (m - i <= fuel)%nat ->
  List.length nodes = m -> slots_ok nodes -> lower_empty nodes i ->
  top_slot nodes i cm ->
  weights_ok acc -> right_spine acc ->
  Fib (i + 2) <= size (tree_to_string acc) ->
  size (slots_string nodes) + size (tree_to_string acc) <= total ->
  exists nodes1 acc1 i1,
    Rope.scan fuel (fib_intervals m) (Z.of_nat m - 1) nodes acc
      (size (tree_to_string acc)) (Z.of_nat i) =
      Ok (nodes1, acc1, size (tree_to_string acc1), Z.of_nat i1) /\
    (i <= i1)%nat /\ (i1 + 2 <= m)%nat /\
    (Fib (i + 3) <= size (tree_to_string acc) -> (i < i1)%nat) /\
    List.length nodes1 = m /\ slots_ok nodes1 /\ lower_empty nodes1 i1 /\
    top_slot nodes1 i1 cm /\
    weights_ok acc1 /\ right_spine acc1 /\
    Fib (i1 + 2) <= size (tree_to_string acc1) < Fib (i1 + 3) /\
    slots_string nodes1 ++ tree_to_string acc1 =
      slots_string nodes ++ tree_to_string acc.
Proof.
  induction fuel as [|fuel IH];
    intros nodes acc i cm Hfuel Hlen Hok Hlow Htop Hwa Hsp Hfib Htotal.
  - pose proof (size_nonneg (slots_string nodes)).
    pose proof (slot_index_bound i _ Hfib ltac:(lia)). lia.
  - pose proof (size_nonneg (slots_string nodes)) as Hs0.
    pose proof (slot_index_bound i _ Hfib ltac:(lia)) as Hi.
    rewrite scan_unfold.
    destruct (Z.ltb_spec (Z.of_nat i) (Z.of_nat m - 1)) as [_|]; [|lia].
    rewrite sz_add_small by lia.
    replace (Z.of_nat i + 1) with (Z.of_nat (S i)) by lia.
    rewrite (intervals_get (S i)) by lia. rewrite bind_ok.
    replace (S i + 2)%nat with (i + 3)%nat by lia.
    destruct (Z.leb_spec (Fib (i + 3)) (size (tree_to_string acc))) as [Hadv|Hstop].
    + destruct (lookup_lt_is_Some_2 nodes i ltac:(lia)) as [slot Hslot].
      rewrite (vec_get_lookup nodes i slot Hslot), bind_ok.
      destruct slot as [s|].
      * (* the slot is taken: it goes in front of [acc] and is emptied *)
        destruct (Hok i s Hslot) as (Hws & Hsps & Hsize).
        pose proof (slots_string_clear nodes i s Hlow Hslot) as Hclear.
        assert (size (slots_string nodes) =
                size (slots_string (<[i := None]> nodes)) + size (tree_to_string s))
          as Hsz by (rewrite Hclear, size_app; reflexivity).
        pose proof (size_nonneg (slots_string (<[i := None]> nodes))).
        pose proof (size_nonneg (tree_to_string s)).
        destruct (merge_spec s acc Hws Hwa Hsp ltac:(lia))
          as (acc1 & -> & Hstr & Hw1 & Hsp1 & Hlen1).
        rewrite bind_ok. cbn zeta. rewrite Hlen1, bind_ok.
        destruct (Z.leb_spec (Fib (i + 3))
                    (size (tree_to_string s) + size (tree_to_string acc)))
          as [_|]; [|lia].
        rewrite (vec_set_insert nodes i None) by lia.
        rewrite !bind_ok. cbn [fst snd].
        assert (size (tree_to_string acc1) =
                size (tree_to_string s) + size (tree_to_string acc)) as Hsz1
          by (rewrite Hstr, size_app; reflexivity).
        rewrite <- Hsz1.
        destruct (IH (<[i := None]> nodes) acc1 (S i) cm) as
          (nodes2 & acc2 & i2 & Hrun & Hi2 & Hi2m & _ & Hlen2 & Hok2 & Hlow2 &
           Htop2 & Hw2 & Hsp2 & Hfib2 & Hstr2).
        { lia. }
        { rewrite length_insert. exact Hlen. }
        { apply slots_ok_clear, Hok. }
        { apply lower_empty_clear; [lia|exact Hlow]. }
        { apply top_slot_clear, Htop. }
        { exact Hw1. }
        { exact Hsp1. }
        { replace (S i + 2)%nat with (i + 3)%nat by lia. lia. }
        { lia. }
        exists nodes2, acc2, i2. rewrite Hrun.
        split_and!; try assumption; try lia; try reflexivity.
        rewrite Hstr2, Hstr, Hclear, <- app_assoc. reflexivity.
      * (* the slot is empty: on to the next one *)
        rewrite !bind_ok. cbn [fst snd].
        destruct (IH nodes acc (S i) cm) as
          (nodes2 & acc2 & i2 & Hrun & Hi2 & Hi2m & _ & Hlen2 & Hok2 & Hlow2 &
           Htop2 & Hw2 & Hsp2 & Hfib2 & Hstr2); try assumption.
        { lia. }
        { apply lower_empty_step; assumption. }
        { apply top_slot_step, Htop. }
        { replace (S i + 2)%nat with (i + 3)%nat by lia. lia. }
        exists nodes2, acc2, i2. rewrite Hrun.
        split_and!; try assumption; try lia; reflexivity.
    + exists nodes, acc, i.
      split_and!; try assumption; try lia; reflexivity.
Qed.

Lemma place_unfold fuel intervals max_i nodes acc len i cm :
  Rope.place (S fuel) intervals max_i nodes acc len i cm =
    st ← Rope.scan (S (List.length intervals)) intervals max_i nodes acc len i;
    slot ← vec_get st.1.1.1 st.2;
    match slot with
    | None =>
      nodes1 ← vec_set st.1.1.1 st.2 (Some st.1.1.2);
      Ok (nodes1, if cm <? st.2 then st.2 else cm)
    | Some s =>
      acc1 ← Rope.merge s st.1.1.2;
      bound ← vec_get intervals (sz_add st.2 1);
      nodes1 ← (if bound <=? length acc1 then vec_set st.1.1.1 st.2 None
                else Ok st.1.1.1);
      Rope.place fuel intervals max_i nodes1 acc1 (length acc1) st.2 cm
    end.
Proof.
  cbn [Rope.place].
  destruct (Rope.scan (S (List.length intervals)) intervals max_i nodes acc len i)
    as [[[[nodes0 acc0] len0] i0]|e]; reflexivity.
Qed.

Lemma lower_empty_keep nodes i j :
  lower_empty nodes i -> lower_empty (<[j := None]> nodes) i.
Proof.
  intros Hlow k Hk. rewrite list_lookup_insert.
  case_decide as Hd; [reflexivity|]. apply Hlow, Hk.
Qed.

Lemma top_slot_keep nodes i cm :
  top_slot nodes i cm -> top_slot (<[i := None]> nodes) i cm.
Proof.
  intros [Hall Htop]. split.
  - intros j s Hj. rewrite list_lookup_insert in Hj.
    case_decide; [discriminate|]. apply (Hall j s Hj).
  - intros Hlt. destruct (Htop Hlt) as [s Hs]. exists s.
    rewrite list_lookup_insert_ne by lia. exact Hs.
Qed.

Lemma Fib_double k : Fib (k + 3) <= 2 * Fib (k + 2).
Proof.
  replace (k + 3)%nat with (S (S (k + 1))) by lia.
  replace (k + 2)%nat with (S (k + 1)) by lia.
  rewrite Fib_step. pose proof (Fib_succ_le (k + 1)). lia.
Qed.

(** The outer loop for one leaf: [acc] ends up in a slot, in front of
    nothing, behind everything that was in the slots. *)
Lemma place_spec fuel : forall nodes acc i cm,
  (m - i + (if (Fib (i + 3) <=? size (tree_to_string acc))%Z then 0 else 1)
   <= fuel)%nat ->
  List.length nodes = m -> slots_ok nodes -> lower_empty nodes i ->
  top_slot nodes i cm ->
  weights_ok acc -> right_spine acc ->
  Fib (i + 2) <= size (tree_to_string acc) ->
  size (slots_string nodes) + size (tree_to_string acc) <= total ->
  exists nodes1 cm1,
    Rope.place fuel (fib_intervals m) (Z.of_nat m - 1) nodes acc
      (size (tree_to_string acc)) (Z.of_nat i) (Z.of_nat cm) =
      Ok (nodes1, Z.of_nat cm1) /\
    List.length nodes1 = m /\ slots_ok nodes1 /\ top_slot nodes1 0 cm1 /\
    slots_string nodes1 = slots_string nodes ++ tree_to_string acc.
Proof.
  induction fuel as [|fuel IH];
    intros nodes acc i cm Hfuel Hlen Hok Hlow Htop Hwa Hsp Hfib Htotal.
  - pose proof (size_nonneg (slots_string nodes)).
    pose proof (slot_index_bound i _ Hfib ltac:(lia)). lia.
  - rewrite place_unfold, fib_intervals_length.
    destruct (scan_spec (S m) nodes acc i cm ltac:(lia) Hlen Hok Hlow Htop Hwa Hsp
                Hfib Htotal)
      as (nodes1 & acc1 & i1 & -> & Hi1 & Hi1m & Hadv & Hlen1 & Hok1 & Hlow1 &
          Htop1 & Hw1 & Hsp1 & Hfib1 & Hstr1).
    rewrite bind_ok. cbn [fst snd].
    assert (size (slots_string nodes1) + size (tree_to_string acc1) =
            size (slots_string nodes) + size (tree_to_string acc)) as Hsz
      by (rewrite <- !size_app, Hstr1; reflexivity).
    destruct (lookup_lt_is_Some_2 nodes1 i1 ltac:(lia)) as [slot Hslot].
    rewrite (vec_get_lookup nodes1 i1 slot Hslot), bind_ok.
    destruct slot as [s|].
    + (* the slot is taken: join, empty the slot, go round again *)
      destruct (Hok1 i1 s Hslot) as (Hws & Hsps & Hsize).
      pose proof (slots_string_clear nodes1 i1 s Hlow1 Hslot) as Hclear.
      assert (size (slots_string nodes1) =
              size (slots_string (<[i1 := None]> nodes1)) + size (tree_to_string s))
        as Hsz1 by (rewrite Hclear, size_app; reflexivity).
      pose proof (size_nonneg (slots_string (<[i1 := None]> nodes1))).
      pose proof (size_nonneg (tree_to_string s)).
      destruct (merge_spec s acc1 Hws Hw1 Hsp1 ltac:(lia))
        as (acc2 & -> & Hstr2 & Hw2 & Hsp2 & Hlen2).
      rewrite bind_ok, Hlen2.
      rewrite sz_add_small by lia.
      replace (Z.of_nat i1 + 1) with (Z.of_nat (S i1)) by lia.
      rewrite (intervals_get (S i1)) by lia. rewrite bind_ok.
      replace (S i1 + 2)%nat with (i1 + 3)%nat by lia.
      pose proof (Fib_double i1) as Hdouble.
      destruct (Z.leb_spec (Fib (i1 + 3))
                  (size (tree_to_string s) + size (tree_to_string acc1)))
        as [Hnext|]; [|lia].
      rewrite (vec_set_insert nodes1 i1 None) by lia. rewrite bind_ok.
      assert (size (tree_to_string acc2) =
              size (tree_to_string s) + size (tree_to_string acc1)) as Hsz2
        by (rewrite Hstr2, size_app; reflexivity).
      rewrite <- Hsz2.
      destruct (IH (<[i1 := None]> nodes1) acc2 i1 cm) as
        (nodes3 & cm3 & Hrun & Hlen3 & Hok3 & Htop3 & Hstr3).
      { destruct (Z.leb_spec (Fib (i1 + 3)) (size (tree_to_string acc2))); [|lia].
        destruct (Z.leb_spec (Fib (i + 3)) (size (tree_to_string acc))) as [Hp|_].
        - specialize (Hadv Hp). lia.
        - lia. }
      { rewrite length_insert. exact Hlen1. }
      { apply slots_ok_clear, Hok1. }
      { apply lower_empty_keep, Hlow1. }
      { apply top_slot_keep, Htop1. }
      { exact Hw2. }
      { exact Hsp2. }
      { lia. }
      { lia. }
      exists nodes3, cm3. rewrite Hrun.
      split_and!; try assumption; try reflexivity.
      rewrite Hstr3, Hstr2, <- Hstr1, Hclear, <- !app_assoc. reflexivity.
    + (* the slot is free: [acc] goes in *)
      rewrite (vec_set_insert nodes1 i1 (Some acc1)) by lia. rewrite bind_ok.
      exists (<[i1 := Some acc1]> nodes1), (Nat.max cm i1).
      split_and!.
      * do 2 f_equal.
        destruct (Z.ltb_spec (Z.of_nat cm) (Z.of_nat i1)); lia.
      * rewrite length_insert. exact Hlen1.
      * intros j s Hj. rewrite list_lookup_insert in Hj.
        case_decide as Hd.
        -- destruct Hd as [<- _]. injection Hj as <-.
           split_and!; try assumption; lia.
        -- apply (Hok1 j s Hj).
      * destruct Htop1 as [Hall Htop1]. split.
        -- intros j s Hj. rewrite list_lookup_insert in Hj.
           case_decide as Hd; [lia|]. pose proof (Hall j s Hj). lia.
        -- intros _. destruct (Nat.lt_ge_cases i1 cm) as [Hlt|Hge].
           ++ destruct (Htop1 Hlt) as [s Hs]. exists s.
              rewrite Nat.max_l by lia.
              rewrite list_lookup_insert_ne by lia. exact Hs.
           ++ exists acc1. rewrite Nat.max_r by lia.
              apply list_lookup_insert_eq. lia.
      * rewrite (slots_string_fill nodes1 i1 acc1 Hlow1 Hslot). exact Hstr1.
Qed.

Lemma insert_leaves_cons lf (ls : list (rope_node A)) intervals max_i nodes cm :
  Rope.insert_leaves (lf :: ls) intervals max_i nodes cm =
    if 0 <? length lf then
      st ← Rope.place (S (List.length intervals)) intervals max_i nodes (copy lf)
                      (length lf) 0 cm;
      Rope.insert_leaves ls intervals max_i st.1 st.2
    else Rope.insert_leaves ls intervals max_i nodes cm.
Proof. reflexivity. Qed.

Lemma insert_leaves_spec (ls : list (rope_node A)) : forall nodes cm,
  Forall leaf_ok ls ->
  List.length nodes = m -> slots_ok nodes -> top_slot nodes 0 cm ->
  size (slots_string nodes) + size (List.concat (map fragment_ ls)) <= total ->
  exists nodes1 cm1,
    Rope.insert_leaves ls (fib_intervals m) (Z.of_nat m - 1) nodes (Z.of_nat cm) =
      Ok (nodes1, Z.of_nat cm1) /\
    List.length nodes1 = m /\ slots_ok nodes1 /\ top_slot nodes1 0 cm1 /\
    slots_string nodes1 = slots_string nodes ++ List.concat (map fragment_ ls).
Proof.
  induction ls as [|lf ls IH]; intros nodes cm Hleaves Hlen Hok Htop Htotal.
  - exists nodes, cm. simpl. rewrite app_nil_r. auto.
  - apply Forall_cons in Hleaves as [Hlf Hrest].
    destruct (leaf_ok_facts lf Hlf) as (Hlength & Hstr & Hw & Hsp).
    rewrite insert_leaves_cons.
    change (List.concat (map fragment_ (lf :: ls)))
      with (fragment_ lf ++ List.concat (map fragment_ ls)) in *.
    rewrite size_app in Htotal.
    pose proof (size_nonneg (fragment_ lf)) as Hf0.
    pose proof (size_nonneg (List.concat (map fragment_ ls))) as Hr0.
    pose proof (size_nonneg (slots_string nodes)) as Hs0.
    rewrite Hlength, fib_intervals_length.
    destruct (Z.ltb_spec 0 (size (fragment_ lf))) as [Hpos|Hzero].
    + rewrite copy_id, <- Hstr.
      destruct (place_spec (S m) nodes lf 0 cm) as
        (nodes1 & cm1 & Hrun & Hlen1 & Hok1 & Htop1 & Hstr1); try assumption.
      { destruct (Fib (0 + 3) <=? size (tree_to_string lf)); lia. }
      { intros j Hj. lia. }
      { rewrite Hstr. change (Fib (0 + 2)) with 1. lia. }
      { rewrite Hstr. lia. }
      change (Z.of_nat 0) with 0 in Hrun. rewrite Hrun, bind_ok. cbn [fst snd].
      destruct (IH nodes1 cm1 Hrest Hlen1 Hok1 Htop1) as
        (nodes2 & cm2 & Hrun2 & Hlen2 & Hok2 & Htop2 & Hstr2).
      { rewrite Hstr1, size_app, Hstr. lia. }
      exists nodes2, cm2. rewrite Hrun2.
      split_and!; try assumption; try reflexivity.
      rewrite Hstr2, Hstr1, Hstr, <- app_assoc. reflexivity.
    + assert (fragment_ lf = []) as Hnil.
      { destruct (fragment_ lf); [reflexivity|]. unfold size in Hzero. simpl in Hzero. lia. }
      rewrite Hnil. simpl.
      apply IH; try assumption. lia.
Qed.

Lemma fold_slots_unfold idx nodes (acc : handle A) :
  Rope.fold_slots idx nodes acc =
    slot ← vec_get nodes (Z.of_nat idx);
    acc1 ← match slot with
           | Some s => joined ← concat acc (Some (copy s)); Ok (Some joined)
           | None => Ok acc
           end;
    match idx with
    | O => Ok acc1
    | S idx' => Rope.fold_slots idx' nodes acc1
    end.
Proof. destruct idx; reflexivity. Qed.

(** The final loop: the slots from [idx] down to 0 go behind [acc]. *)
Lemma fold_slots_spec nodes : forall idx acc,
  slots_ok nodes -> (idx < List.length nodes)%nat ->
  weights_ok acc -> right_spine acc ->
  size (tree_to_string acc) + size (slots_string (take (S idx) nodes)) <= total ->
  exists root,
    Rope.fold_slots idx nodes (Some acc) = Ok (Some root) /\
    tree_to_string root = tree_to_string acc ++ slots_string (take (S idx) nodes) /\
    weights_ok root /\ right_spine root.
Proof.
  clear m_ge_2 m_fits total_below.
  induction idx as [|idx IH]; intros acc Hok Hidx Hw Hsp Htotal.
  - destruct (lookup_lt_is_Some_2 nodes 0 Hidx) as [slot Hslot].
    rewrite (take_S_r nodes 0 slot Hslot), slots_string_snoc in *.
    rewrite take_0 in *. change (slots_string []) with (@nil A) in *.
    rewrite app_nil_r in *.
    rewrite fold_slots_unfold, (vec_get_lookup nodes 0 slot Hslot), bind_ok.
    destruct slot as [s|]; cbn [handle_string] in *.
    + destruct (Hok 0%nat s Hslot) as (Hws & Hsps & _).
      rewrite copy_id, concat_some, !bind_ok.
      pose proof (size_nonneg (tree_to_string s)).
      eexists. split; [reflexivity|]. split_and!.
      * rewrite tree_to_string_internal by reflexivity. reflexivity.
      * apply weights_ok_joined; [exact Hw| |exact Hws]. unfold representable. lia.
      * exact Hsps.
    + rewrite bind_ok. exists acc. rewrite app_nil_r. auto.
  - destruct (lookup_lt_is_Some_2 nodes (S idx) Hidx) as [slot Hslot].
    rewrite (take_S_r nodes (S idx) slot Hslot), slots_string_snoc in *.
    rewrite size_app in Htotal.
    pose proof (size_nonneg (slots_string (take (S idx) nodes))) as Hs0.
    rewrite fold_slots_unfold, (vec_get_lookup nodes (S idx) slot Hslot), bind_ok.
    destruct slot as [s|]; cbn [handle_string] in *.
    + destruct (Hok (S idx) s Hslot) as (Hws & Hsps & _).
      rewrite copy_id, concat_some, !bind_ok.
      pose proof (size_nonneg (tree_to_string s)).
      destruct (IH (mk_node (length acc) (Some acc) (Some s) [])) as
        (root & Hrun & Hstr & Hwr & Hspr); try assumption.
      { lia. }
      { apply weights_ok_joined; [exact Hw| |exact Hws]. unfold representable. lia. }
      { rewrite tree_to_string_internal by reflexivity. cbn [handle_string].
        rewrite size_app. lia. }
      exists root. rewrite Hrun. split_and!; try assumption; try reflexivity.
      rewrite Hstr, tree_to_string_internal by reflexivity. cbn [handle_string].
      rewrite <- app_assoc. reflexivity.
    + rewrite bind_ok. change (size (@nil A)) with 0 in Htotal.
      destruct (IH acc) as (root & Hrun & Hstr & Hwr & Hspr); try assumption.
      { lia. }
      exists root. split_and!; assumption.
Qed.
End Balance.

(** ** Balancing: the whole operation *)

Lemma Fib_45 : Fib 45 = 1134903170.
Proof. rewrite Fib_fst. vm_compute. reflexivity. Qed.

(** From that length on, [next = a + b] leaves the range of [int]. *)
Lemma build_fib_list_overflow : build_fib_list 1134903170 = Err IntOverflow.
Proof. vm_compute. reflexivity. Qed.

Lemma Fib_47 : Fib 47 = 2971215073.
Proof. rewrite Fib_fst. vm_compute. reflexivity. Qed.

(** The loop of [build_fib_list] ends within the rounds the model gives
    it, whatever the length. *)
Lemma build_fib_loop_terminates len :
  forall fuel j intervals, (j <= 45)%nat -> (46 - j <= fuel)%nat ->
  build_fib_loop fuel len (Fib j) (Fib (S j)) intervals <> Err OutOfFuel.
Proof.
  induction fuel as [|fuel IH]; intros j intervals Hj Hfuel; [lia|].
  rewrite build_fib_loop_unfold.
  destruct (Fib j <=? len); [|discriminate].
  destruct (Z.ltb_spec int_max (Fib j + Fib (S j))) as [|Hfit]; [discriminate|].
  replace (Fib j + Fib (S j)) with (Fib (S (S j))) in * by (rewrite Fib_step; lia).
  assert (S (S j) < 47)%nat
    by (apply Fib_lt_index; rewrite Fib_47; unfold int_max in Hfit; lia).
  apply IH; lia.
Qed.

Lemma build_fib_list_terminates len : build_fib_list len <> Err OutOfFuel.
Proof. apply (build_fib_loop_terminates len 64 0 []); lia. Qed.

Section BalanceClaims.
Context {A : Type}.
Import Node.
Implicit Types (R : Rope.rope A) (nodes : list (handle A)).

Lemma slots_string_top nodes cm (s : rope_node A) :
  nodes !! cm = Some (Some s) ->
  (forall j s', nodes !! j = Some (Some s') -> (j <= cm)%nat) ->
  slots_string nodes =
    tree_to_string s ++ slots_string (take (S cm) (<[cm := None]> nodes)).
Proof.
  intros Hcm Hall. pose proof (lookup_lt_Some _ _ _ Hcm) as Hlt.
  rewrite (take_S_r _ cm None) by (apply list_lookup_insert_eq; exact Hlt).
  rewrite slots_string_snoc, take_insert_ge by lia. cbn [handle_string app].
  rewrite <- (take_drop_middle nodes cm (Some s) Hcm) at 1.
  rewrite slots_string_app.
  change (Some s :: drop (S cm) nodes) with ([Some s] ++ drop (S cm) nodes).
  rewrite slots_string_app, (slots_string_empty (drop (S cm) nodes)).
  - reflexivity.
  - intros j s' Hj. rewrite lookup_drop in Hj.
    pose proof (Hall _ _ Hj). lia.
Qed.

Lemma rebuild_spec R :
  rope_ok R -> 1 <= Rope.length R < Fib 45 ->
  exists root,
    Rope.rebuild R = Ok (Some root) /\
    tree_to_string root = Rope.to_string R /\
    weights_ok root /\ right_spine root.
Proof.
  intros HR Hlen. rewrite (rope_length_ok R HR) in Hlen.
  unfold Rope.rebuild. rewrite (rope_length_ok R HR).
  destruct HR as (r & Hroot & Hw & Hsp & Hrep).
  unfold Rope.to_string in *. rewrite Hroot in *. unfold representable in Hrep.
  set (total := size (tree_to_string r)) in *.
  destruct (build_fib_list_spec total Hlen) as (m & Hm2 & -> & Hm).
  assert (m < 45)%nat as Hm45 by (apply Fib_lt_index; lia).
  assert (Z.of_nat m < size_t_modulus) as Hmfits by (unfold size_t_modulus; lia).
  rewrite bind_ok. cbn [deref]. rewrite bind_ok.
  rewrite fib_intervals_length.
  assert (sz_sub (size (fib_intervals m)) 1 = Z.of_nat m - 1) as ->.
  { unfold size. rewrite fib_intervals_length. apply sz_sub_small. lia. }
  change (getLeaves r []) with (leaves r).
  destruct (leaves_spec r Hw) as [Hleaves Hconcat].
  destruct (insert_leaves_spec m total Hm2 Hmfits ltac:(lia) Hrep (leaves r)
              (replicate m None) 0)
    as (nodes1 & cm1 & Hrun & Hlen1 & Hok1 & [Hall Htop] & Hstr1).
  { exact Hleaves. }
  { apply length_replicate. }
  { intros j s Hj. apply lookup_replicate in Hj. destruct Hj as [Hj _]. discriminate. }
  { split; [|lia]. intros j s Hj. apply lookup_replicate in Hj.
    destruct Hj as [Hj _]. discriminate. }
  { rewrite slots_string_replicate, Hconcat. change (size (@nil A)) with 0. lia. }
  change (Z.of_nat 0) with 0 in Hrun. rewrite Hrun, bind_ok. cbn [fst snd].
  rewrite slots_string_replicate, Hconcat in Hstr1. simpl in Hstr1.
  assert (exists s, nodes1 !! cm1 = Some (Some s)) as [s Hs].
  { destruct (Nat.eq_dec cm1 0%nat) as [->|Hne]; [|apply Htop; lia].
    destruct (lookup_lt_is_Some_2 nodes1 0%nat ltac:(lia)) as [[s|] Hslot]; [eauto|].
    exfalso. rewrite (slots_string_empty nodes1) in Hstr1.
    - apply (f_equal size) in Hstr1. change (size (@nil A)) with 0 in Hstr1.
      unfold total in Hlen. lia.
    - intros j s Hj. pose proof (Hall j s Hj).
      replace j with 0%nat in Hj by lia. rewrite Hslot in Hj. discriminate. }
  pose proof (lookup_lt_Some _ _ _ Hs) as Hcm.
  rewrite (vec_get_lookup nodes1 cm1 (Some s) Hs), bind_ok.
  rewrite (vec_set_insert nodes1 cm1 None Hcm), bind_ok, Nat2Z.id.
  destruct (Hok1 cm1 s Hs) as (Hws & Hsps & _).
  pose proof (slots_string_top nodes1 cm1 s Hs) as Htopstr.
  rewrite Hstr1 in Htopstr.
  specialize (Htopstr ltac:(intros j s' Hj; pose proof (Hall j s' Hj); lia)).
  destruct (fold_slots_spec total Hrep (<[cm1 := None]> nodes1) cm1 s)
    as (root & Hfold & Hstr & Hwr & Hspr); try assumption.
  { apply slots_ok_clear, Hok1. }
  { rewrite length_insert. exact Hcm. }
  { rewrite <- size_app, <- Htopstr. unfold total. lia. }
  exists root. rewrite Hfold. split_and!; try assumption; try reflexivity.
  rewrite Hstr, <- Htopstr. reflexivity.
Qed.

(** One [balance()]: it succeeds, the string and the state of the rope are
    kept, and nothing changes when [is_balanced()] already holds. *)
Lemma balance_keeps_string R :
  rope_ok R -> 1 <= Rope.length R < 1134903170 ->
  exists R1,
    Rope.balance R = (Ok tt, R1) /\
    Rope.to_string R1 = Rope.to_string R /\
    rope_ok R1 /\
    match Rope.is_balanced R with
    | Ok true => R1 = R
    | _ => True
    end.
Proof.
  intros HR Hlen. rewrite <- Fib_45 in Hlen.
  unfold Rope.balance.
  destruct (rebuild_spec R HR Hlen) as (root & Hrun & Hstr & Hw & Hsp).
  pose proof (rope_length_ok R HR) as HlR.
  pose proof HR as (r & Hroot & _).
  rewrite (is_balanced_value R r Hroot).
  destruct (wrap (Fib (Z.to_nat (sz_add (depth r) 2))) <=? Rope.length R).
  - exists R. auto.
  - rewrite Hrun. eexists. split; [reflexivity|]. split; [exact Hstr|].
    split; [|exact I].
    exists root. split_and!; try assumption; try reflexivity.
    unfold representable. rewrite Hstr, <- HlR. rewrite Fib_45 in Hlen.
    unfold size_t_modulus. lia.
Qed.

(** What holds of [balance()].  On a rope in the state the public
    operations leave it in, with at least one element and fewer than
    1134903170 (the bound up to which [build_fib_list] stays within
    [int]), [balance()] and a second [balance()] succeed and leave the
    represented string as it was, and the first changes nothing when
    [is_balanced()] already holds. *)
Lemma balance_twice_keeps_string R :
  rope_ok R -> 1 <= Rope.length R < 1134903170 ->
  exists R1 R2,
    Rope.balance R = (Ok tt, R1) /\
    Rope.balance R1 = (Ok tt, R2) /\
    Rope.to_string R1 = Rope.to_string R /\
    Rope.to_string R2 = Rope.to_string R /\
    match Rope.is_balanced R with
    | Ok true => R1 = R
    | _ => True
    end.
Proof.
  intros HR Hlen.
  destruct (balance_keeps_string R HR Hlen) as (R1 & Hrun1 & Hstr1 & HR1 & Hnoop).
  assert (Rope.length R1 = Rope.length R) as Hlen1
    by (rewrite (rope_length_ok R1 HR1), (rope_length_ok R HR), Hstr1; reflexivity).
  destruct (balance_keeps_string R1 HR1 ltac:(lia)) as (R2 & Hrun2 & Hstr2 & _ & _).
  exists R1, R2. split_and!; try assumption.
  rewrite Hstr2. exact Hstr1.
Qed.
End BalanceClaims.

(** C5, at two inputs.  The rope built from "a" by appending "b" to "g"
    one by one is not balanced; [balance()] twice leaves "abcdefg" in a
    tree of depth 4, and [is_balanced()] is still false: 7 is below
    [fib(6)], 8.  On the default-constructed rope [balance()] does not
    return a rope at all: it reads slot 0 of an empty vector. *)
Theorem balance_misses_criterion :
  Rope.is_balanced a_to_g = Ok false /\
  (exists R1 R2 n,
     Rope.balance a_to_g = (Ok tt, R1) /\
     Rope.balance R1 = (Ok tt, R2) /\
     Rope.to_string R2 = chars "abcdefg" /\
     Rope.length R2 = 7 /\
     Rope.root_ R2 = Some n /\ Node.depth n = 4 /\ fib 6 = Ok 8 /\
     Rope.is_balanced R2 = Ok false) /\
  Rope.is_balanced (@Rope.empty ascii) = Ok false /\
  Rope.balance (@Rope.empty ascii) = (Err VectorIndex, Rope.empty).
Proof.
  split; [vm_compute; reflexivity|]. split.
  - eexists. eexists. eexists.
    split; [vm_compute; reflexivity|].
    split; [vm_compute; reflexivity|].
    repeat split; vm_compute; reflexivity.
  - split; vm_compute; reflexivity.
Qed.

Lemma a_to_g_ok : rope_ok a_to_g.
Proof.
  eexists. split; [vm_compute; reflexivity|].
  vm_compute. repeat split; reflexivity.
Defined.

Lemma balance_twice_keeps_string_example :
  exists R1 R2,
    Rope.balance a_to_g = (Ok tt, R1) /\
    Rope.balance R1 = (Ok tt, R2) /\
    Rope.to_string R1 = Rope.to_string a_to_g /\
    Rope.to_string R2 = Rope.to_string a_to_g /\
    match Rope.is_balanced a_to_g with
    | Ok true => R1 = a_to_g
    | _ => True
    end.
Proof.
  apply (balance_twice_keeps_string a_to_g).
  - exact a_to_g_ok.
  - vm_compute. split; [discriminate|reflexivity].
Defined.

(** * Further properties of the code *)

(** ** The Fibonacci helpers *)

(** X1. [fib(n)] returns, for every [size_t] argument, the Fibonacci
    number of index [n] reduced modulo 2^64 (the loop runs once per bit
    of [n], so it always ends); up to index 93 the number itself. *)
Theorem fib_computes_fibonacci n :
  0 <= n < size_t_modulus ->
  fib n = Ok (Fib (Z.to_nat n) mod size_t_modulus) /\
  (n <= 93 -> fib n = Ok (Fib (Z.to_nat n))).
Proof.
  intros Hn. rewrite (fib_standard n Hn). split; [reflexivity|].
  intros H93. rewrite wrap_small; [reflexivity|]. apply Fib_fits. lia.
Qed.

Lemma fib_computes_fibonacci_witness :
  fib 90 = Ok (Fib (Z.to_nat 90) mod size_t_modulus) /\
  (90 <= 93 -> fib 90 = Ok (Fib (Z.to_nat 90))).
Proof.
  apply (fib_computes_fibonacci 90). unfold size_t_modulus. lia.
Defined.

(** X2. For a length below 1134903170 (the Fibonacci number of index 45)
    [build_fib_list(len)] returns the Fibonacci numbers of index 2 to
    [m + 1], in this order, where [m] is the index with
    [Fib m <= len < Fib (m + 1)]: every bound but the last is at most
    [len], the last is the first one above it.  For length 0 the list is
    empty, for every other length it has at least two entries. *)
Theorem build_fib_list_intervals len :
  0 <= len < 1134903170 ->
  exists m,
    build_fib_list len = Ok (fib_intervals m) /\
    List.length (fib_intervals m) = m /\
    (forall i, (i < m)%nat -> fib_intervals m !! i = Some (Fib (i + 2))) /\
    Fib m <= len < Fib (S m) /\
    (len = 0 -> m = O) /\ (1 <= len -> (2 <= m)%nat).
Proof.
  intros Hlen. destruct (Z.eq_dec len 0) as [->|Hpos].
  - exists O. split_and!; try reflexivity; try lia.
  - destruct (build_fib_list_spec len) as (m & Hm & Hrun & Hbounds).
    { rewrite Fib_45. lia. }
    exists m. split_and!; try assumption; try lia.
    + apply fib_intervals_length.
    + intros i Hi. apply fib_intervals_lookup, Hi.
Qed.

Lemma build_fib_list_intervals_witness :
  exists m,
    build_fib_list 7 = Ok (fib_intervals m) /\
    List.length (fib_intervals m) = m /\
    (forall i, (i < m)%nat -> fib_intervals m !! i = Some (Fib (i + 2))) /\
    Fib m <= 7 < Fib (S m) /\
    (7 = 0 -> m = O) /\ (1 <= 7 -> (2 <= m)%nat).
Proof. apply (build_fib_list_intervals 7). lia. Defined.

Lemma build_fib_loop_overflows len :
  1134903170 <= len ->
  forall fuel j intervals, (j <= 45)%nat -> (46 - j <= fuel)%nat ->
  build_fib_loop fuel len (Fib j) (Fib (S j)) intervals = Err IntOverflow.
Proof.
  intros Hlen. induction fuel as [|fuel IH]; intros j intervals Hj Hfuel; [lia|].
  rewrite build_fib_loop_unfold.
  pose proof (Fib_mono j 45 Hj) as Hle. rewrite Fib_45 in Hle.
  destruct (Z.leb_spec (Fib j) len) as [_|]; [|lia].
  destruct (Z.ltb_spec int_max (Fib j + Fib (S j))) as [|Hfit]; [reflexivity|].
  replace (Fib j + Fib (S j)) with (Fib (S (S j))) in * by (rewrite Fib_step; lia).
  assert (S (S j) < 47)%nat
    by (apply Fib_lt_index; rewrite Fib_47; unfold int_max in Hfit; lia).
  apply IH; lia.
Qed.

(** X3. From length 1134903170 on, [build_fib_list(len)] adds two [int]s
    whose sum is above [INT_MAX]: the loop reaches [a = 1134903170],
    [b = 1836311903] with [a <= len] and computes [a + b]; signed
    overflow is undefined behaviour.  ([balance()] calls the function
    with the rope's length.) *)
Theorem build_fib_list_overflows len :
  1134903170 <= len -> build_fib_list len = Err IntOverflow.
Proof.
  intros Hlen. apply (build_fib_loop_overflows len Hlen 64 0 []); lia.
Qed.

Lemma build_fib_list_overflows_witness :
  build_fib_list 4294967296 = Err IntOverflow.
Proof. apply (build_fib_list_overflows 4294967296). lia. Defined.

(** ** Nodes: length, copies, leaves and element access *)

Section NodeExtras.
Context {A : Type}.
Import Node.
Implicit Types (n : rope_node A) (nul : A).

(** X4. On a tree whose weights are right, [length()] is the number of
    elements of [tree_to_string()], for the node and for the rope that
    has it as root; trees with one-child nodes, as [insert] and [erase]
    leave them, included. *)
Theorem length_is_size n :
  weights_ok n -> representable n ->
  length n = size (tree_to_string n) /\
  Rope.length (Rope.mk_rope (Some n)) =
    size (Rope.to_string (Rope.mk_rope (Some n))).
Proof.
  intros Hw Hrep. split; apply length_weights; assumption.
Qed.

(** X5. The copy constructor of the node is a deep copy: the copy is
    equal to the original, field by field, down to the leaves.  The copy
    constructor of the rope gives a rope equal to its argument when the
    argument has a root, and dereferences a null pointer when it has
    none (a rope that was moved from). *)
Theorem copy_is_deep_copy :
  (forall n, copy n = n) /\
  (forall (R : Rope.rope A) n, Rope.root_ R = Some n -> Rope.copy_rope R = Ok R) /\
  (forall (R : Rope.rope A), Rope.root_ R = None -> Rope.copy_rope R = Err NullDeref).
Proof.
  split_and!.
  - apply copy_id.
  - intros [h] n Hroot. simpl in Hroot. subst h.
    apply copy_rope_root. reflexivity.
  - intros [h] Hroot. simpl in Hroot. subst h. reflexivity.
Qed.

(** X6. [getLeaves(v)] appends to [v], and leaves [v] itself alone; what
    it appends are leaves, as many as the tree has, and their fragments
    from left to right make up [tree_to_string()]. *)
Theorem getLeaves_collects_leaves n (v : list (rope_node A)) :
  exists ls,
    getLeaves n v = v ++ ls /\
    Forall (fun lf => is_leaf lf = true) ls /\
    List.concat (map fragment_ ls) = tree_to_string n.
Proof.
  exists (leaves n). split; [apply getLeaves_app|].
  clear v. induction n as [w l r f IHl IHr] using rope_node_ind.
  destruct l as [l'|], r as [r'|].
  - rewrite leaves_internal, tree_to_string_internal by reflexivity.
    simpl in *. destruct IHl as [IHl1 IHl2], IHr as [IHr1 IHr2].
    split; [apply Forall_app; auto|].
    rewrite map_app, concat_app. congruence.
  - rewrite leaves_internal, tree_to_string_internal by reflexivity.
    simpl in *. rewrite !app_nil_r. exact IHl.
  - rewrite leaves_internal, tree_to_string_internal by reflexivity.
    simpl in *. exact IHr.
  - split; [repeat constructor|]. simpl. apply app_nil_r.
Qed.

Lemma get_item_safe_Ok nul n : forall index c,
  get_item_safe nul n index = Ok c -> get_item nul n index = Ok c.
Proof.
  induction n as [w l r f IHl IHr] using rope_node_ind. intros index c.
  destruct l as [l'|], r as [r'|]; simpl in *;
    repeat match goal with |- context [if ?c then _ else _] => destruct c end;
    auto; discriminate.
Qed.

(** X7. For an index inside the rope, [get_item] and [get_item_safe]
    both return the element of [tree_to_string()] at that index. *)
Theorem get_item_in_range nul n index :
  weights_ok n -> representable n -> 0 <= index < length n ->
  exists c,
    tree_to_string n !! Z.to_nat index = Some c /\
    get_item nul n index = Ok c /\ get_item_safe nul n index = Ok c.
Proof.
  intros Hw Hrep Hindex. rewrite (length_weights n Hw Hrep) in Hindex.
  unfold representable in Hrep.
  destruct (getCharByIndex_spec nul n Hw Hrep index ltac:(lia)) as [Hin _].
  destruct Hin as (c & Hc & Hget); [lia|].
  rewrite getCharByIndex_safe in Hget.
  exists c. split_and!; auto. apply get_item_safe_Ok, Hget.
Qed.

(** X8. On a tree whose weights are right and whose rightmost path ends
    in a leaf, [get_item_safe(index)] throws [std::out_of_range] exactly
    when [index >= length()]. *)
Theorem get_item_safe_throws nul n index :
  weights_ok n -> representable n -> right_spine n ->
  0 <= index < size_t_modulus ->
  (get_item_safe nul n index = Err OutOfRange <-> length n <= index).
Proof.
  intros Hw Hrep Hsp Hindex. rewrite (length_weights n Hw Hrep).
  rewrite <- getCharByIndex_safe.
  destruct (getCharByIndex_spec nul n Hw Hrep index Hindex) as [Hin Hout].
  split.
  - intros Herr.
    destruct (Z.le_gt_cases (size (tree_to_string n)) index) as [|Hlt]; [assumption|].
    destruct Hin as (c & _ & Hget); [lia|]. congruence.
  - intros Hge. apply Hout; assumption.
Qed.

(** X9. [get_item] makes no range check: whatever the tree and the
    index, it does not throw.  Past the end it reads the terminator of a
    leaf's string, or runs into undefined behaviour. *)
Theorem get_item_never_throws nul n index :
  get_item nul n index <> Err OutOfRange /\
  (is_leaf n = true -> get_item nul n (size (fragment_ n)) = Ok nul) /\
  (is_leaf n = true -> size (fragment_ n) < index ->
   get_item nul n index = Err StringIndex).
Proof.
  split_and!.
  - revert index. induction n as [w l r f IHl IHr] using rope_node_ind. intros index.
    destruct l as [l'|], r as [r'|]; simpl in *;
      repeat match goal with |- context [if ?c then _ else _] => destruct c end;
      auto; try discriminate.
    unfold str_index.
    repeat match goal with |- context [if ?c then _ else _] => destruct c end;
      try discriminate.
    destruct (f !! Z.to_nat index); discriminate.
  - destruct n as [w [l'|] [r'|] f]; simpl; try discriminate. intros _.
    unfold str_index. rewrite Z.ltb_irrefl, Z.eqb_refl. reflexivity.
  - destruct n as [w [l'|] [r'|] f]; simpl; try discriminate. intros _ Hpast.
    unfold str_index.
    destruct (Z.ltb_spec index (size f)); [lia|].
    destruct (Z.eqb_spec index (size f)); [lia|reflexivity].
Qed.
End NodeExtras.

Lemma length_is_size_witness :
  Node.length so_cut_text = size (Node.tree_to_string so_cut_text) /\
  Rope.length (Rope.mk_rope (Some so_cut_text)) =
    size (Rope.to_string (Rope.mk_rope (Some so_cut_text))).
Proof.
  apply (length_is_size so_cut_text).
  - simpl. repeat split; reflexivity.
  - reflexivity.
Defined.

Lemma get_item_in_range_witness :
  exists c,
    Node.tree_to_string so_cut_text !! Z.to_nat 3 = Some c /\
    Node.get_item "000"%char so_cut_text 3 = Ok c /\
    Node.get_item_safe "000"%char so_cut_text 3 = Ok c.
Proof.
  apply (get_item_in_range "000"%char so_cut_text 3).
  - simpl. repeat split; reflexivity.
  - reflexivity.
  - vm_compute. split; [discriminate|reflexivity].
Defined.

Lemma get_item_safe_throws_witness :
  Node.get_item_safe "000"%char so_cut_text 6 = Err OutOfRange <->
  Node.length so_cut_text <= 6.
Proof.
  apply (get_item_safe_throws "000"%char so_cut_text 6).
  - simpl. repeat split; reflexivity.
  - reflexivity.
  - simpl. exact I.
  - unfold size_t_modulus. lia.
Defined.

(** ** Substrings *)

Section SubstrExtras.
Context {A : Type}.
Import Node.
Implicit Types (n : rope_node A).

Lemma substr_internal w (l r : handle A) f start len :
  is_leaf (mk_node w l r f) = false ->
  substr (mk_node w l r f) start len =
    if start <? w then
      lResult ← match l with
                | None => Ok []
                | Some l' => substr l' start len
                end;
      if w <? sz_add start len then
        rResult ← match r with
                  | None => Ok []
                  | Some r' => substr r' w (sz_sub len (sz_sub w start))
                  end;
        Ok (lResult ++ rResult)
      else Ok lResult
    else
      match r with
      | None => Ok []
      | Some r' => substr r' (sz_sub start w) len
      end.
Proof. destruct l, r; simpl; intros H; try discriminate; reflexivity. Qed.

Lemma within_leaf_internal w (l r : handle A) f start len :
  is_leaf (mk_node w l r f) = false ->
  within_leaf (mk_node w l r f) start len =
    if start <? w then
      start + len <= w /\ handle_all (fun l' => within_leaf l' start len) l
    else handle_all (fun r' => within_leaf r' (start - w) len) r.
Proof. destruct l, r; simpl; intros H; try discriminate; reflexivity. Qed.

Lemma substr_one_leaf n :
  weights_ok n -> representable n ->
  forall start len, 0 <= start < size_t_modulus -> 0 <= len ->
  within_leaf n start len ->
  substr n start len =
    Ok (take (Z.to_nat len) (drop (Z.to_nat start) (tree_to_string n))).
Proof.
  induction n as [w l r f IHl IHr] using rope_node_ind.
  intros Hw Hrep start len Hstart Hlen Hfit.
  destruct l as [l'|].
  - pose proof (representable_left _ _ _ _ _ eq_refl Hrep) as Hrepl.
    rewrite within_leaf_internal in Hfit by reflexivity.
    rewrite substr_internal, tree_to_string_internal by reflexivity.
    unfold representable in Hrep, Hrepl.
    rewrite tree_to_string_internal in Hrep by reflexivity.
    simpl in Hw. destruct Hw as (Hwl & Hweight & Hwr).
    cbn [handle_string] in *. rewrite size_app in Hrep.
    pose proof (size_nonneg (tree_to_string l')) as Hl0.
    pose proof (size_nonneg (handle_string r)) as Hr0.
    simpl in IHl. subst w.
    destruct (Z.ltb_spec start (size (tree_to_string l'))) as [Hlt|Hge].
    + destruct Hfit as [Hend Hfitl]. simpl in Hfitl.
      rewrite (IHl Hwl Hrepl start len Hstart Hlen Hfitl), bind_ok.
      rewrite sz_add_small by lia.
      destruct (Z.ltb_spec (size (tree_to_string l')) (start + len)); [lia|].
      f_equal. rewrite drop_app_Z by lia.
      rewrite take_app_Z; [reflexivity|]. rewrite size_drop by lia. lia.
    + rewrite sz_sub_small by lia.
      destruct r as [r'|]; cbn [handle_string] in *.
      * simpl in IHr, Hfit, Hwr.
        rewrite (IHr Hwr ltac:(unfold representable; lia)
                   (start - size (tree_to_string l')) len ltac:(lia) Hlen Hfit).
        f_equal. rewrite drop_app_Z_ge by lia. reflexivity.
      * rewrite app_nil_r. f_equal.
        rewrite drop_ge by (unfold size in Hge; lia). rewrite take_nil. reflexivity.
  - destruct r as [r'|]; simpl in Hw; [contradiction|].
    simpl in Hfit |- *. subst w.
    pose proof (size_nonneg f) as Hf0.
    destruct (Z.ltb_spec len (size f)) as [Hlt|Hge].
    + unfold str_substr. destruct (Z.ltb_spec (size f) start); [lia|].
      rewrite Z.min_l by lia. reflexivity.
    + assert (start = 0) as -> by lia. assert (len = size f) as -> by lia.
      f_equal. change (Z.to_nat 0) with 0%nat. rewrite drop_0.
      rewrite take_ge; [reflexivity|]. unfold size. lia.
Qed.

Lemma within_leaf_single n :
  weights_ok n ->
  forall start, 0 <= start < size (tree_to_string n) -> within_leaf n start 1.
Proof.
  induction n as [w l r f IHl IHr] using rope_node_ind. intros Hw start Hstart.
  destruct l as [l'|].
  - rewrite within_leaf_internal by reflexivity.
    rewrite tree_to_string_internal in Hstart by reflexivity.
    simpl in Hw. destruct Hw as (Hwl & Hweight & Hwr).
    cbn [handle_string] in *. rewrite size_app in Hstart. simpl in IHl. subst w.
    destruct (Z.ltb_spec start (size (tree_to_string l'))) as [Hlt|Hge].
    + split; [lia|]. simpl. apply IHl; [exact Hwl|lia].
    + destruct r as [r'|]; simpl; [|exact I].
      simpl in IHr, Hwr, Hstart. apply IHr; [exact Hwr|lia].
  - destruct r as [r'|]; simpl in Hw; [contradiction|].
    simpl in Hstart |- *. lia.
Qed.

Lemma within_leaf_empty n :
  weights_ok n ->
  forall start, 0 <= start <= size (tree_to_string n) -> within_leaf n start 0.
Proof.
  induction n as [w l r f IHl IHr] using rope_node_ind. intros Hw start Hstart.
  destruct l as [l'|].
  - rewrite within_leaf_internal by reflexivity.
    rewrite tree_to_string_internal in Hstart by reflexivity.
    simpl in Hw. destruct Hw as (Hwl & Hweight & Hwr).
    cbn [handle_string] in *. rewrite size_app in Hstart. simpl in IHl. subst w.
    destruct (Z.ltb_spec start (size (tree_to_string l'))) as [Hlt|Hge].
    + split; [lia|]. simpl. apply IHl; [exact Hwl|lia].
    + destruct r as [r'|]; simpl; [|exact I].
      simpl in IHr, Hwr, Hstart. apply IHr; [exact Hwr|lia].
  - destruct r as [r'|]; simpl in Hw; [contradiction|].
    simpl in Hstart |- *. lia.
Qed.

(** X10. When the requested range lies inside one leaf, [substr(start,
    len)] of the node returns the [len] elements of [tree_to_string()]
    from [start] on.  (A range at or past the end of a tree without a
    right child gives the empty string.) *)
Theorem substr_within_leaf n start len :
  weights_ok n -> representable n ->
  0 <= start < size_t_modulus -> 0 <= len ->
  within_leaf n start len ->
  substr n start len =
    Ok (take (Z.to_nat len) (drop (Z.to_nat start) (tree_to_string n))).
Proof.
  intros Hw Hrep Hstart Hlen Hfit. apply substr_one_leaf; assumption.
Qed.

(** X11. [substr(index, 1)] of a rope returns the one element at
    [index], for every index inside the rope, and [substr(start, 0)]
    returns the empty string, for every start up to the length. *)
Theorem substr_single_element (R : Rope.rope A) index :
  rope_ok R -> 0 <= index < Rope.length R ->
  (exists c, Rope.to_string R !! Z.to_nat index = Some c /\
             Rope.substr R index 1 = Ok [c]) /\
  Rope.substr R index 0 = Ok [] /\
  Rope.substr R (Rope.length R) 0 = Ok [].
Proof.
  intros Hok Hindex. rewrite (rope_length_ok R Hok) in *.
  unfold Rope.substr. rewrite (rope_length_ok R Hok).
  destruct Hok as (n & Hroot & Hw & Hsp & Hrep).
  unfold Rope.to_string in *. rewrite Hroot in *. simpl deref.
  unfold representable in Hrep.
  split_and!.
  - destruct (lookup_lt_is_Some_2 (tree_to_string n) (Z.to_nat index)) as [c Hc].
    { unfold size in Hindex. lia. }
    exists c. split; [exact Hc|].
    rewrite sz_add_small by lia.
    destruct (Z.ltb_spec (size (tree_to_string n)) index); [lia|].
    destruct (Z.ltb_spec (size (tree_to_string n)) (index + 1)); [lia|].
    simpl. rewrite substr_one_leaf; try assumption; try lia.
    + rewrite (drop_S _ _ _ Hc). reflexivity.
    + apply within_leaf_single; [exact Hw|lia].
  - rewrite sz_add_small by lia.
    destruct (Z.ltb_spec (size (tree_to_string n)) index); [lia|].
    destruct (Z.ltb_spec (size (tree_to_string n)) (index + 0)); [lia|].
    simpl. rewrite substr_one_leaf; try assumption; try lia.
    + reflexivity.
    + apply within_leaf_empty; [exact Hw|lia].
  - rewrite sz_add_small by lia.
    rewrite Z.ltb_irrefl.
    destruct (Z.ltb_spec (size (tree_to_string n)) (size (tree_to_string n) + 0));
      [lia|].
    simpl. rewrite substr_one_leaf; try assumption; try lia.
    + reflexivity.
    + apply within_leaf_empty; [exact Hw|lia].
Qed.

(** X12. On a rope constructed from a string (one leaf), [substr(start,
    len)] throws [std::out_of_range] when [start + len] is past the end
    and returns the [len] elements from [start] on otherwise. *)
Theorem substr_of_string (str : cont_type A) start len :
  size str < size_t_modulus ->
  0 <= start -> 0 <= len -> start + len < size_t_modulus ->
  Rope.substr (Rope.of_string str) start len =
    if size str <? start + len then Err OutOfRange
    else Ok (take (Z.to_nat len) (drop (Z.to_nat start) str)).
Proof.
  intros Hrep Hstart Hlen Hsum. unfold Rope.substr.
  change (Rope.length (Rope.of_string str)) with (size str).
  rewrite sz_add_small by lia.
  destruct (Z.ltb_spec (size str) (start + len)) as [Hpast|Hin].
  - rewrite orb_true_r. reflexivity.
  - destruct (Z.ltb_spec (size str) start); [lia|].
    simpl orb. cbv iota. simpl deref. rewrite bind_ok.
    apply (substr_one_leaf (leaf str)); try lia.
    + reflexivity.
    + exact Hrep.
    + simpl. lia.
Qed.

(** X13. [substr] of the node checks its child pointers before it
    follows them: on any tree, with any arguments, it returns a string or
    throws the [std::out_of_range] of the leaf's string; it has no
    undefined behaviour. *)
Theorem substr_returns_or_throws n start len :
  (exists s, substr n start len = Ok s) \/ substr n start len = Err OutOfRange.
Proof.
  revert start len. induction n as [w l r f IHl IHr] using rope_node_ind.
  intros start len.
  assert (forall (h : handle A) (k : Z -> Z -> Z * Z),
            handle_all (fun n' => forall start len,
              (exists s, substr n' start len = Ok s) \/
              substr n' start len = Err OutOfRange) h ->
            (exists s, match h with
                       | None => Ok []
                       | Some n' => substr n' (k start len).1 (k start len).2
                       end = Ok s) \/
            match h with
            | None => Ok []
            | Some n' => substr n' (k start len).1 (k start len).2
            end = Err OutOfRange) as Hchild.
  { intros [n'|] k IH; simpl in IH; [apply IH|left; eexists; reflexivity]. }
  destruct (is_leaf (mk_node w l r f)) eqn:Hleaf.
  - destruct l, r; try discriminate. simpl.
    destruct (len <? w); [|left; eexists; reflexivity].
    unfold str_substr. destruct (size f <? start); [right|left; eexists]; reflexivity.
  - rewrite substr_internal by exact Hleaf.
    destruct (start <? w).
    + destruct (Hchild l (fun s k => (s, k)) IHl) as [[s1 Hs1]|Hs1];
        simpl in Hs1; rewrite Hs1; [|right; reflexivity].
      rewrite bind_ok.
      destruct (w <? sz_add start len); [|left; eexists; reflexivity].
      destruct (Hchild r (fun s k => (w, sz_sub k (sz_sub w s))) IHr)
        as [[s2 Hs2]|Hs2]; simpl in Hs2; rewrite Hs2;
        [left; eexists|right]; reflexivity.
    + destruct (Hchild r (fun s k => (sz_sub s w, k)) IHr) as [Hs|Hs];
        simpl in Hs; [left|right]; exact Hs.
Qed.
End SubstrExtras.

Lemma substr_within_leaf_witness :
  Node.substr so_cut_text 3 2 =
    Ok (take (Z.to_nat 2) (drop (Z.to_nat 3) (Node.tree_to_string so_cut_text))).
Proof.
  apply (substr_within_leaf so_cut_text 3 2).
  - simpl. repeat split; reflexivity.
  - reflexivity.
  - unfold size_t_modulus. lia.
  - lia.
  - vm_compute. discriminate.
Defined.

Lemma substr_single_element_witness :
  (exists c, Rope.to_string some_text !! Z.to_nat 5 = Some c /\
             Rope.substr some_text 5 1 = Ok [c]) /\
  Rope.substr some_text 5 0 = Ok [] /\
  Rope.substr some_text (Rope.length some_text) 0 = Ok [].
Proof.
  apply (substr_single_element some_text 5).
  - exact some_text_ok.
  - vm_compute. split; [discriminate|reflexivity].
Defined.

Lemma substr_of_string_witness :
  Rope.substr (Rope.of_string (chars "abc")) 1 2 =
    if size (chars "abc") <? 1 + 2 then Err OutOfRange
    else Ok (take (Z.to_nat 2) (drop (Z.to_nat 1) (chars "abc"))).
Proof.
  apply (substr_of_string (chars "abc") 1 2).
  - reflexivity.
  - lia.
  - lia.
  - unfold size_t_modulus. lia.
Defined.

(** ** Splitting and the mutators built on it *)

Section MutationExtras.
Context {A : Type}.
Import Node.
Implicit Types (n : rope_node A) (R S : Rope.rope A).

(** X14. [split] needs no more than right weights: it works on trees
    that hold one-child nodes, as an earlier [split] leaves them, and
    both parts have right weights again, so that splits can be chained
    as [erase] does.  The parts represent the first [k] elements and the
    rest, and their lengths are [k] and [length() - k].  A split at the
    very end needs the rightmost path to end in a leaf. *)
Theorem split_keeps_weights n k :
  weights_ok n -> representable n -> 0 <= k <= length n ->
  (k = length n -> right_spine n) ->
  exists a b,
    split (Some n) k = Ok (Some a, Some b) /\
    tree_to_string a = take (Z.to_nat k) (tree_to_string n) /\
    tree_to_string b = drop (Z.to_nat k) (tree_to_string n) /\
    weights_ok a /\ weights_ok b /\ (right_spine n -> right_spine b) /\
    length a = k /\ length b = length n - k.
Proof.
  intros Hw Hrep Hk Hend. rewrite (length_weights n Hw Hrep) in *.
  destruct (split_node_spec n Hw Hrep k Hk Hend)
    as (a & b & Hsplit & Ha & Hb & Hwa & Hwb & Hspb).
  exists a, b. split_and!; try assumption.
  - apply (take_size_length n k); assumption.
  - apply (drop_size_length n k); assumption.
Qed.

(** X15. [split] at an index past the end throws [std::out_of_range]
    (from the [substr] of the last leaf), when the rightmost path of the
    tree ends in a leaf. *)
Theorem split_past_end n k :
  weights_ok n -> representable n -> right_spine n ->
  length n < k < size_t_modulus ->
  split (Some n) k = Err OutOfRange.
Proof.
  intros Hw Hrep Hsp. rewrite (length_weights n Hw Hrep). simpl. revert Hw Hrep Hsp k.
  induction n as [w l r f IHl IHr] using rope_node_ind.
  intros Hw Hrep Hsp k Hk.
  destruct l as [l'|].
  - rewrite split_node_internal.
    unfold representable in Hrep.
    rewrite tree_to_string_internal in * by reflexivity.
    simpl in Hw. destruct Hw as (Hwl & Hweight & Hwr).
    cbn [handle_string] in *. rewrite size_app in *.
    pose proof (size_nonneg (tree_to_string l')) as Hl0.
    pose proof (size_nonneg (handle_string r)) as Hr0.
    subst w.
    destruct (Z.ltb_spec k (size (tree_to_string l'))); [lia|].
    destruct (Z.ltb_spec (size (tree_to_string l')) k); [|lia].
    destruct r as [r'|]; simpl in Hsp; [|contradiction].
    simpl in IHr, Hwr. cbn [handle_string] in *.
    rewrite sz_sub_small by lia.
    rewrite (IHr Hwr ltac:(unfold representable; lia) Hsp); [reflexivity|lia].
  - destruct r as [r'|]; simpl in Hw; [contradiction|].
    simpl in Hk |- *. subst w.
    unfold str_substr.
    pose proof (size_nonneg f) as Hf0.
    destruct (Z.ltb_spec (size f) 0); [lia|].
    destruct (Z.ltb_spec (size f) k); [reflexivity|lia].
Qed.

Lemma append_string_spec R (str : cont_type A) :
  rope_ok R -> Rope.length R + size str < size_t_modulus ->
  exists r,
    Rope.root_ R = Some r /\
    Rope.append_string R str =
      (Ok tt, Rope.mk_rope (Some (mk_node (length r) (Some r) (Some (leaf str)) []))) /\
    rope_ok (Rope.mk_rope (Some (mk_node (length r) (Some r) (Some (leaf str)) []))) /\
    tree_to_string (mk_node (length r) (Some r) (Some (leaf str)) []) =
      Rope.to_string R ++ str.
Proof.
  intros HR Hfit. rewrite (rope_length_ok R HR) in *.
  destruct HR as (r & Hroot & Hw & Hsp & Hrep).
  unfold Rope.to_string in *. rewrite Hroot in *.
  exists r. split; [reflexivity|].
  unfold Rope.append_string. rewrite Hroot. cbn [Rope.root_ Rope.of_string].
  rewrite concat_some. split; [reflexivity|].
  rewrite tree_to_string_internal by reflexivity. cbn [handle_string].
  split; [|reflexivity].
  eexists. split; [reflexivity|]. split_and!.
  - apply weights_ok_joined; [assumption|assumption|reflexivity].
  - exact I.
  - unfold representable.
    rewrite tree_to_string_internal by reflexivity. cbn [handle_string].
    rewrite size_app. exact Hfit.
Qed.

(** X16. [append(r)] and [append(str)] on a rope in the state the public
    operations leave it in, with a combined length that fits a [size_t]:
    both succeed, the rope then represents its old content followed by
    the appended one, its length is the sum, and it is in that state
    again. *)
Theorem append_concatenates R S (str : cont_type A) :
  rope_ok R -> rope_ok S ->
  Rope.length R + Rope.length S < size_t_modulus ->
  Rope.length R + size str < size_t_modulus ->
  (exists R1,
     Rope.append R S = (Ok tt, R1) /\ rope_ok R1 /\
     Rope.to_string R1 = Rope.to_string R ++ Rope.to_string S /\
     Rope.length R1 = Rope.length R + Rope.length S) /\
  (exists R1,
     Rope.append_string R str = (Ok tt, R1) /\ rope_ok R1 /\
     Rope.to_string R1 = Rope.to_string R ++ str /\
     Rope.length R1 = Rope.length R + size str).
Proof.
  intros HR HS Hfit Hfits. split.
  - destruct (append_spec R S HR HS Hfit) as (R1 & Happ & HR1 & Hstr).
    exists R1. split_and!; try assumption.
    rewrite (rope_length_ok R1 HR1), (rope_length_ok R HR), (rope_length_ok S HS).
    rewrite Hstr. apply size_app.
  - destruct (append_string_spec R str HR Hfits) as (r & Hroot & Happ & HR1 & Hstr).
    eexists. split_and!; [exact Happ|exact HR1|exact Hstr|].
    rewrite (rope_length_ok _ HR1), (rope_length_ok R HR).
    unfold Rope.to_string at 1. cbn [Rope.root_]. rewrite Hstr. apply size_app.
Qed.

(** X17. [insert(i, r)] on ropes in the state the public operations leave
    them in: for [i > length()] it throws [std::out_of_range] and the
    rope is as before; for every other [i] it succeeds, the rope is in
    that state again (right weights, a left child under every node that
    is not a leaf), and its length has grown by the length of [r]. *)
Theorem insert_checks_and_inserts R i S :
  rope_ok R -> rope_ok S -> 0 <= i ->
  Rope.length R + Rope.length S < size_t_modulus ->
  if Rope.length R <? i then Rope.insert R i S = (Err OutOfRange, R)
  else
    exists R1,
      Rope.insert R i S = (Ok tt, R1) /\ rope_ok R1 /\
      Rope.length R1 = Rope.length R + Rope.length S.
Proof.
  intros HR HS Hi Hfit.
  destruct (Z.ltb_spec (Rope.length R) i) as [Hpast|Hin].
  - apply insert_rejected, Hpast.
  - destruct (insert_spec R i S HR HS ltac:(lia) Hfit) as (R1 & Hins & HR1 & Hstr).
    exists R1. split_and!; try assumption.
    rewrite (rope_length_ok R1 HR1), (rope_length_ok R HR), (rope_length_ok S HS) in *.
    rewrite Hstr, !size_app, size_take, size_drop by lia. lia.
Qed.

(** X18. [erase(start, len)] on a rope in the state the public operations
    leave it in, with [start + len] that fits a [size_t]: when
    [start + len] is past the end it throws [std::out_of_range] and the
    rope is as before; otherwise it succeeds, the rope represents its old
    content without the elements [start] to [start + len - 1], its length
    is [len] less, and it is in that state again. *)
Theorem erase_checks_and_erases R start len :
  rope_ok R -> 0 <= start -> 0 <= len -> start + len < size_t_modulus ->
  if Rope.length R <? start + len then Rope.erase R start len = (Err OutOfRange, R)
  else
    exists R1,
      Rope.erase R start len = (Ok tt, R1) /\ rope_ok R1 /\
      Rope.to_string R1 =
        take (Z.to_nat start) (Rope.to_string R) ++
        drop (Z.to_nat (start + len)) (Rope.to_string R) /\
      Rope.length R1 = Rope.length R - len.
Proof.
  intros HR Hstart Hlen Hfit.
  destruct (Z.ltb_spec (Rope.length R) (start + len)) as [Hpast|Hin].
  - apply erase_rejected. right. rewrite sz_add_small by lia. exact Hpast.
  - destruct (erase_spec R start len HR Hstart Hlen Hin) as (R1 & Her & HR1 & Hstr).
    exists R1. split_and!; try assumption.
    rewrite (rope_length_ok R1 HR1), (rope_length_ok R HR) in *.
    rewrite Hstr, !size_app, size_take, size_drop by lia. lia.
Qed.

(** X19. [insert] at the two ends: at [length()] it gives the content
    that [append] gives, at 0 the inserted rope comes first; and
    [erase(0, length())] leaves a rope that represents the empty
    string. *)
Theorem insert_at_the_ends R S :
  rope_ok R -> rope_ok S ->
  Rope.length R + Rope.length S < size_t_modulus ->
  exists R1 R2 R3 R4,
    Rope.insert R (Rope.length R) S = (Ok tt, R1) /\
    Rope.append R S = (Ok tt, R2) /\
    Rope.to_string R1 = Rope.to_string R2 /\
    Rope.insert R 0 S = (Ok tt, R3) /\
    Rope.to_string R3 = Rope.to_string S ++ Rope.to_string R /\
    Rope.erase R 0 (Rope.length R) = (Ok tt, R4) /\
    Rope.to_string R4 = [] /\ rope_ok R4.
Proof.
  intros HR HS Hfit.
  pose proof (rope_length_ok R HR) as HlR.
  pose proof (size_nonneg (Rope.to_string R)) as H0.
  destruct (insert_spec R (Rope.length R) S HR HS ltac:(lia) Hfit)
    as (R1 & Hins1 & _ & Hstr1).
  destruct (append_spec R S HR HS Hfit) as (R2 & Happ & _ & Hstr2).
  destruct (insert_spec R 0 S HR HS ltac:(lia) Hfit) as (R3 & Hins3 & _ & Hstr3).
  destruct (erase_spec R 0 (Rope.length R) HR ltac:(lia) ltac:(lia) ltac:(lia))
    as (R4 & Her & HR4 & Hstr4).
  exists R1, R2, R3, R4. split_and!; try assumption.
  - rewrite Hstr1, Hstr2, HlR.
    rewrite take_ge, drop_ge by (unfold size; lia).
    rewrite app_nil_r. reflexivity.
  - rewrite Hstr4, HlR. change (Z.to_nat 0) with 0%nat.
    rewrite take_0, drop_ge by (unfold size; lia). reflexivity.
Qed.
End MutationExtras.

Lemma so_cut_text_ok : rope_ok (Rope.mk_rope (Some so_cut_text)).
Proof.
  exists so_cut_text. split; [reflexivity|].
  vm_compute. repeat split; reflexivity.
Defined.

Lemma split_keeps_weights_witness :
  exists a b,
    Node.split (Some so_cut_text) 1 = Ok (Some a, Some b) /\
    Node.tree_to_string a = take (Z.to_nat 1) (Node.tree_to_string so_cut_text) /\
    Node.tree_to_string b = drop (Z.to_nat 1) (Node.tree_to_string so_cut_text) /\
    weights_ok a /\ weights_ok b /\ (right_spine so_cut_text -> right_spine b) /\
    Node.length a = 1 /\ Node.length b = Node.length so_cut_text - 1.
Proof.
  apply (split_keeps_weights so_cut_text 1).
  - simpl. repeat split; reflexivity.
  - reflexivity.
  - vm_compute. split; discriminate.
  - intros _. simpl. exact I.
Defined.

Lemma split_past_end_witness : Node.split (Some so_cut_text) 7 = Err OutOfRange.
Proof.
  apply (split_past_end so_cut_text 7).
  - simpl. repeat split; reflexivity.
  - reflexivity.
  - simpl. exact I.
  - vm_compute. split; reflexivity.
Defined.

Lemma append_concatenates_witness :
  (exists R1,
     Rope.append some_text abc = (Ok tt, R1) /\ rope_ok R1 /\
     Rope.to_string R1 = Rope.to_string some_text ++ Rope.to_string abc /\
     Rope.length R1 = Rope.length some_text + Rope.length abc) /\
  (exists R1,
     Rope.append_string some_text (chars "!") = (Ok tt, R1) /\ rope_ok R1 /\
     Rope.to_string R1 = Rope.to_string some_text ++ chars "!" /\
     Rope.length R1 = Rope.length some_text + size (chars "!")).
Proof.
  apply (append_concatenates some_text abc (chars "!")).
  - exact some_text_ok.
  - apply of_string_ok. reflexivity.
  - reflexivity.
  - reflexivity.
Defined.

Lemma insert_checks_and_inserts_witness :
  if Rope.length (Rope.mk_rope (Some so_cut_text)) <? 3
  then Rope.insert (Rope.mk_rope (Some so_cut_text)) 3 abc =
         (Err OutOfRange, Rope.mk_rope (Some so_cut_text))
  else
    exists R1,
      Rope.insert (Rope.mk_rope (Some so_cut_text)) 3 abc = (Ok tt, R1) /\
      rope_ok R1 /\
      Rope.length R1 = Rope.length (Rope.mk_rope (Some so_cut_text)) + Rope.length abc.
Proof.
  apply (insert_checks_and_inserts (Rope.mk_rope (Some so_cut_text)) 3 abc).
  - exact so_cut_text_ok.
  - apply of_string_ok. reflexivity.
  - lia.
  - reflexivity.
Defined.

Lemma erase_checks_and_erases_witness :
  if Rope.length some_text <? 2 + 4 then
    Rope.erase some_text 2 4 = (Err OutOfRange, some_text)
  else
    exists R1,
      Rope.erase some_text 2 4 = (Ok tt, R1) /\ rope_ok R1 /\
      Rope.to_string R1 =
        take (Z.to_nat 2) (Rope.to_string some_text) ++
        drop (Z.to_nat (2 + 4)) (Rope.to_string some_text) /\
      Rope.length R1 = Rope.length some_text - 4.
Proof.
  apply (erase_checks_and_erases some_text 2 4).
  - exact some_text_ok.
  - lia.
  - lia.
  - unfold size_t_modulus. lia.
Defined.

Lemma insert_at_the_ends_witness :
  exists R1 R2 R3 R4,
    Rope.insert some_text (Rope.length some_text) abc = (Ok tt, R1) /\
    Rope.append some_text abc = (Ok tt, R2) /\
    Rope.to_string R1 = Rope.to_string R2 /\
    Rope.insert some_text 0 abc = (Ok tt, R3) /\
    Rope.to_string R3 = Rope.to_string abc ++ Rope.to_string some_text /\
    Rope.erase some_text 0 (Rope.length some_text) = (Ok tt, R4) /\
    Rope.to_string R4 = [] /\ rope_ok R4.
Proof.
  apply (insert_at_the_ends some_text abc).
  - exact some_text_ok.
  - apply of_string_ok. reflexivity.
  - reflexivity.
Defined.

(** ** [balance()]: the tree it builds *)

Section BalanceExtras.
Context {A : Type}.
Import Node.
Implicit Types (n s acc : rope_node A) (nodes : list (handle A)) (R : Rope.rope A).

Lemma bind_Ok_inv {X Y : Type} (m : result X) (k : X -> result Y) y :
  (m ≫= k) = Ok y -> exists x, m = Ok x /\ k x = Ok y.
Proof. destruct m as [x|e]; [exists x; auto|discriminate]. Qed.

Lemma vec_get_packed nodes i (h : handle A) :
  vec_get nodes i = Ok h -> Forall handle_packed nodes -> handle_packed h.
Proof.
  unfold vec_get. destruct ((0 <=? i) && (i <? Z.of_nat (List.length nodes)));
    [|discriminate].
  destruct (nodes !! Z.to_nat i) as [x|] eqn:Hx; [|discriminate].
  intros Heq Hall. inversion Heq; subst.
  apply (Forall_lookup_1 _ _ _ _ Hall Hx).
Qed.

Lemma vec_set_packed nodes i (h : handle A) nodes1 :
  vec_set nodes i h = Ok nodes1 -> Forall handle_packed nodes -> handle_packed h ->
  Forall handle_packed nodes1.
Proof.
  unfold vec_set. destruct ((0 <=? i) && (i <? Z.of_nat (List.length nodes)));
    [|discriminate].
  intros Heq Hall Hh. inversion Heq; subst. apply Forall_insert; assumption.
Qed.

Lemma merge_packed s acc joined :
  Rope.merge s acc = Ok joined -> packed s = true -> packed acc = true ->
  packed joined = true.
Proof.
  unfold Rope.merge. rewrite !copy_id, concat_some.
  intros Heq Hs Hacc. inversion Heq; subst. simpl. rewrite Hs, Hacc. reflexivity.
Qed.

Lemma scan_packed fuel :
  forall intervals max_i nodes acc len i nodes1 acc1 len1 i1,
  Rope.scan fuel intervals max_i nodes acc len i = Ok (nodes1, acc1, len1, i1) ->
  Forall handle_packed nodes -> packed acc = true ->
  Forall handle_packed nodes1 /\ packed acc1 = true.
Proof.
  induction fuel as [|fuel IH];
    intros intervals max_i nodes acc len i nodes1 acc1 len1 i1; [discriminate|].
  rewrite scan_unfold. intros Hrun Hall Hacc.
  destruct (i <? max_i); [|inversion Hrun; subst; auto].
  apply bind_Ok_inv in Hrun as (bound & _ & Hrun).
  destruct (bound <=? len); [|inversion Hrun; subst; auto].
  apply bind_Ok_inv in Hrun as (slot & Hslot & Hrun).
  apply bind_Ok_inv in Hrun as (st & Hst & Hrun).
  assert (Forall handle_packed st.1.1 /\ packed st.1.2 = true) as [Hall1 Hacc1].
  { pose proof (vec_get_packed _ _ _ Hslot Hall) as Hs.
    destruct slot as [s|].
    - apply bind_Ok_inv in Hst as (acc' & Hm & Hst).
      pose proof (merge_packed _ _ _ Hm Hs Hacc) as Hacc'.
      cbv zeta in Hst.
      apply bind_Ok_inv in Hst as (bound1 & _ & Hst).
      destruct (bound1 <=? length acc').
      + apply bind_Ok_inv in Hst as (nodes' & Hset & Hst).
        inversion Hst; subst. simpl. split; [|exact Hacc'].
        apply (vec_set_packed _ _ _ _ Hset Hall). exact I.
      + inversion Hst; subst. simpl. auto.
    - inversion Hst; subst. simpl. auto. }
  apply (IH _ _ _ _ _ _ _ _ _ _ Hrun Hall1 Hacc1).
Qed.

Lemma place_packed fuel :
  forall intervals max_i nodes acc len i cm nodes1 cm1,
  Rope.place fuel intervals max_i nodes acc len i cm = Ok (nodes1, cm1) ->
  Forall handle_packed nodes -> packed acc = true ->
  Forall handle_packed nodes1.
Proof.
  induction fuel as [|fuel IH];
    intros intervals max_i nodes acc len i cm nodes1 cm1; [discriminate|].
  rewrite place_unfold. intros Hrun Hall Hacc.
  apply bind_Ok_inv in Hrun as (st & Hscan & Hrun).
  destruct st as [[[nodes0 acc0] len0] i0]. cbn [fst snd] in Hrun.
  destruct (scan_packed _ _ _ _ _ _ _ _ _ _ _ Hscan Hall Hacc) as [Hall0 Hacc0].
  apply bind_Ok_inv in Hrun as (slot & Hslot & Hrun).
  pose proof (vec_get_packed _ _ _ Hslot Hall0) as Hs.
  destruct slot as [s|].
  - apply bind_Ok_inv in Hrun as (acc1 & Hm & Hrun).
    pose proof (merge_packed _ _ _ Hm Hs Hacc0) as Hacc1.
    apply bind_Ok_inv in Hrun as (bound & _ & Hrun).
    apply bind_Ok_inv in Hrun as (nodes' & Hset & Hrun).
    apply (IH _ _ _ _ _ _ _ _ _ Hrun); [|exact Hacc1].
    destruct (bound <=? length acc1).
    + apply (vec_set_packed _ _ _ _ Hset Hall0). exact I.
    + inversion Hset; subst. exact Hall0.
  - apply bind_Ok_inv in Hrun as (nodes' & Hset & Hrun).
    inversion Hrun; subst. apply (vec_set_packed _ _ _ _ Hset Hall0). exact Hacc0.
Qed.

Lemma insert_leaves_packed (ls : list (rope_node A)) :
  forall intervals max_i nodes cm nodes1 cm1,
  Rope.insert_leaves ls intervals max_i nodes cm = Ok (nodes1, cm1) ->
  Forall leaf_ok ls -> Forall handle_packed nodes -> Forall handle_packed nodes1.
Proof.
  induction ls as [|lf ls IH]; intros intervals max_i nodes cm nodes1 cm1 Hrun Hls Hall.
  - inversion Hrun; subst. exact Hall.
  - rewrite insert_leaves_cons in Hrun. apply Forall_cons in Hls as [Hlf Hls].
    destruct (Z.ltb_spec 0 (length lf)) as [Hpos|_].
    + apply bind_Ok_inv in Hrun as ([nodes' cm'] & Hplace & Hrun).
      cbn [fst snd] in Hrun.
      apply (IH _ _ _ _ _ _ Hrun Hls).
      apply (place_packed _ _ _ _ _ _ _ _ _ _ Hplace Hall).
      rewrite copy_id. destruct (leaf_ok_facts lf Hlf) as (Hlen & _).
      destruct Hlf as [Hleaf _].
      destruct lf as [w [l'|] [r'|] f]; try discriminate.
      simpl in *. apply Z.ltb_lt. lia.
    + apply (IH _ _ _ _ _ _ Hrun Hls Hall).
Qed.

Lemma fold_slots_packed nodes : forall idx (acc h : handle A),
  Rope.fold_slots idx nodes acc = Ok h ->
  Forall handle_packed nodes -> handle_packed acc -> handle_packed h.
Proof.
  assert (forall (slot acc acc1 : handle A),
            match slot with
            | Some s => joined ← concat acc (Some (copy s)); Ok (Some joined)
            | None => Ok acc
            end = Ok acc1 ->
            handle_packed slot -> handle_packed acc -> handle_packed acc1) as Hstep.
  { intros [s|] acc acc1 Heq Hs Hacc; [|inversion Heq; subst; exact Hacc].
    destruct acc as [a|]; [|discriminate].
    rewrite copy_id, concat_some, bind_ok in Heq. inversion Heq; subst.
    simpl in *. rewrite Hs, Hacc. reflexivity. }
  induction idx as [|idx IH]; intros acc h; rewrite fold_slots_unfold;
    intros Hrun Hall Hacc;
    apply bind_Ok_inv in Hrun as (slot & Hslot & Hrun);
    apply bind_Ok_inv in Hrun as (acc1 & Hacc1 & Hrun);
    pose proof (Hstep _ _ _ Hacc1 (vec_get_packed _ _ _ Hslot Hall) Hacc) as Hp.
  - inversion Hrun; subst. exact Hp.
  - apply (IH _ _ Hrun Hall Hp).
Qed.

Lemma rebuild_unfold R :
  Rope.rebuild R =
    intervals ← build_fib_list (Rope.length R);
    root ← deref (Rope.root_ R);
    st ← Rope.insert_leaves (getLeaves root []) intervals (sz_sub (size intervals) 1)
           (replicate (List.length intervals) None) 0;
    acc ← vec_get st.1 st.2;
    nodes1 ← vec_set st.1 st.2 None;
    Rope.fold_slots (Z.to_nat st.2) nodes1 acc.
Proof. reflexivity. Qed.

Lemma rebuild_packed R root :
  Rope.rebuild R = Ok (Some root) -> rope_ok R -> packed root = true.
Proof.
  intros Hrun (r & Hroot & Hw & _). rewrite rebuild_unfold in Hrun.
  rewrite Hroot in Hrun.
  apply bind_Ok_inv in Hrun as (intervals & _ & Hrun).
  cbn [deref] in Hrun. rewrite bind_ok in Hrun.
  apply bind_Ok_inv in Hrun as ([nodes1 cm1] & Hins & Hrun). cbn [fst snd] in Hrun.
  apply bind_Ok_inv in Hrun as (acc & Hget & Hrun).
  apply bind_Ok_inv in Hrun as (nodes2 & Hset & Hrun).
  destruct (leaves_spec r Hw) as [Hleaves _].
  assert (Forall handle_packed nodes1) as Hall1.
  { apply (insert_leaves_packed _ _ _ _ _ _ _ Hins Hleaves).
    apply Forall_replicate. exact I. }
  change (handle_packed (Some root)).
  apply (fold_slots_packed _ _ _ _ Hrun).
  - apply (vec_set_packed _ _ _ _ Hset Hall1). exact I.
  - apply (vec_get_packed _ _ _ Hget Hall1).
Qed.

Lemma packed_well_formed n : weights_ok n -> packed n = true -> well_formed n.
Proof.
  induction n as [w l r f IHl IHr] using rope_node_ind. intros Hw Hp.
  destruct l as [l'|], r as [r'|]; simpl in *; try discriminate; try contradiction.
  - destruct Hw as (Hwl & Hweight & Hwr).
    apply andb_prop in Hp as [Hp Hpr]. apply andb_prop in Hp as [Hf Hpl].
    split_and!; auto.
    apply Z.eqb_eq in Hf. destruct f; [reflexivity|].
    unfold size in Hf. simpl in Hf. lia.
  - exact Hw.
Qed.

(** X20. [balance()] on a rope in the state the public operations leave
    it in, with at least one element and fewer than 1134903170: it
    succeeds; the content and the length are as before; the rope is in
    that state again; and nothing at all changes when [is_balanced()]
    already holds. *)
Theorem balance_preserves_content R :
  rope_ok R -> 1 <= Rope.length R < 1134903170 ->
  exists R1,
    Rope.balance R = (Ok tt, R1) /\
    Rope.to_string R1 = Rope.to_string R /\
    Rope.length R1 = Rope.length R /\
    rope_ok R1 /\
    match Rope.is_balanced R with
    | Ok true => R1 = R
    | _ => True
    end.
Proof.
  intros HR Hlen.
  destruct (balance_keeps_string R HR Hlen) as (R1 & Hrun & Hstr & HR1 & Hsame).
  exists R1. split_and!; try assumption.
  rewrite (rope_length_ok R1 HR1), (rope_length_ok R HR), Hstr. reflexivity.
Qed.

(** X21. When [balance()] rebuilds the tree (the rope is not balanced),
    the new tree satisfies the invariants of the data model: every node
    that is not a leaf has both children, an empty fragment and the size
    of its left subtree as weight; and no leaf of it is empty.  The
    one-child nodes that [insert] and [erase] leave behind are gone. *)
Theorem balance_builds_full_tree R :
  rope_ok R -> 1 <= Rope.length R < 1134903170 ->
  Rope.is_balanced R = Ok false ->
  exists root,
    Rope.balance R = (Ok tt, Rope.mk_rope (Some root)) /\
    tree_to_string root = Rope.to_string R /\
    well_formed root /\ has_single_child root = false /\ packed root = true.
Proof.
  intros HR Hlen Hbal. rewrite <- Fib_45 in Hlen.
  destruct (rebuild_spec R HR Hlen) as (root & Hrun & Hstr & Hw & Hsp).
  pose proof (rebuild_packed R root Hrun HR) as Hp.
  pose proof (packed_well_formed root Hw Hp) as Hwf.
  exists root. unfold Rope.balance. rewrite Hbal, Hrun.
  split_and!; try assumption; try reflexivity.
  apply well_formed_single, Hwf.
Qed.

Lemma insert_leaves_skip (ls : list (rope_node A)) intervals max_i nodes cm :
  Forall (fun lf => length lf = 0) ls ->
  Rope.insert_leaves ls intervals max_i nodes cm = Ok (nodes, cm).
Proof.
  induction 1 as [|lf ls Hlf _ IH]; [reflexivity|].
  rewrite insert_leaves_cons, Hlf. exact IH.
Qed.

Lemma leaves_empty (ls : list (rope_node A)) :
  Forall leaf_ok ls -> List.concat (map fragment_ ls) = [] ->
  Forall (fun lf => length lf = 0) ls.
Proof.
  induction 1 as [|lf ls Hlf _ IH]; simpl; intros Hc; constructor.
  - apply app_eq_nil in Hc as [Hf _].
    destruct (leaf_ok_facts lf Hlf) as (-> & _). rewrite Hf. reflexivity.
  - apply app_eq_nil in Hc as [_ Hc]. apply IH, Hc.
Qed.

(** X22. [balance()] on a rope without content, whatever its tree (the
    default rope, or what [erase(0, length())] leaves): [is_balanced()]
    is false, [build_fib_list(0)] is empty, no leaf is placed, and the
    read of slot 0 of the empty slot vector is undefined behaviour.
    (Stated for trees of depth up to 91, where [fib] does not wrap.) *)
Theorem balance_without_content R n :
  rope_ok R -> Rope.root_ R = Some n -> (height n <= 91)%nat ->
  Rope.to_string R = [] ->
  Rope.is_balanced R = Ok false /\ Rope.balance R = (Err VectorIndex, R).
Proof.
  intros HR Hroot Hh Hstr.
  pose proof (rope_length_ok R HR) as Hlen. rewrite Hstr in Hlen.
  change (size (@nil A)) with 0 in Hlen.
  assert (Rope.is_balanced R = Ok false) as Hbal.
  { rewrite (is_balanced_value R n Hroot), Hlen.
    rewrite depth_height by (unfold size_t_modulus; lia).
    rewrite sz_add_small by (unfold size_t_modulus; lia).
    replace (Z.to_nat (Z.of_nat (height n) + 2)) with (height n + 2)%nat by lia.
    rewrite wrap_small by (apply Fib_fits; lia).
    pose proof (Fib_pos (height n + 2) ltac:(lia)).
    destruct (Z.leb_spec (Fib (height n + 2)) 0); [lia|reflexivity]. }
  split; [exact Hbal|].
  unfold Rope.balance. rewrite Hbal, rebuild_unfold, Hlen, Hroot.
  assert (build_fib_list 0 = Ok []) as -> by reflexivity.
  rewrite bind_ok. cbn [deref]. rewrite bind_ok.
  destruct HR as (r & Hroot' & Hw & _). rewrite Hroot in Hroot'.
  inversion Hroot'; subst r.
  unfold Rope.to_string in Hstr. rewrite Hroot in Hstr.
  destruct (leaves_spec n Hw) as [Hleaves Hconcat]. rewrite Hstr in Hconcat.
  change (getLeaves n []) with (leaves n).
  rewrite (insert_leaves_skip (leaves n)) by (apply leaves_empty; assumption).
  reflexivity.
Qed.

Lemma append_strings_spec (strs : list (cont_type A)) : forall R r,
  rope_ok R -> Rope.root_ R = Some r ->
  Rope.length R + size (List.concat strs) < size_t_modulus ->
  exists n,
    Rope.root_ (append_strings R strs) = Some n /\
    rope_ok (append_strings R strs) /\
    tree_to_string n = tree_to_string r ++ List.concat strs /\
    height n = (height r + List.length strs)%nat.
Proof.
  induction strs as [|str strs IH]; intros R r HR Hroot Hfit.
  - exists r. simpl. rewrite app_nil_r, Nat.add_0_r. auto.
  - simpl List.concat in *. rewrite size_app in Hfit.
    pose proof (size_nonneg str) as H0.
    pose proof (size_nonneg (List.concat strs)) as H1.
    destruct (append_string_spec R str HR ltac:(lia)) as (r' & Hroot' & Happ & HR1 & Hstr).
    rewrite Hroot in Hroot'. inversion Hroot'; subst r'.
    unfold append_strings. simpl foldl. rewrite Happ. cbn [snd].
    destruct (IH _ _ HR1 eq_refl) as (n & Hn & Hok & Hstrn & Hhn).
    { rewrite (rope_length_ok _ HR1). unfold Rope.to_string at 1. cbn [Rope.root_].
      rewrite Hstr, size_app, <- (rope_length_ok R HR). lia. }
    exists n. split_and!; try assumption.
    + rewrite Hstrn, Hstr. unfold Rope.to_string. rewrite Hroot.
      rewrite <- app_assoc. reflexivity.
    + rewrite Hhn, height_internal by reflexivity. simpl. lia.
Qed.

(** X23. [append(str)] time after time gives a tree that is as deep as
    the number of appends: after the strings of a list have been appended
    to a rope constructed from a string, the rope represents them in
    order, its depth is the length of the list, and it is balanced for
    [is_balanced()] only while the Fibonacci number of index depth + 2
    is at most the length.  (With no append: a rope constructed from a
    string is balanced unless the string is empty.) *)
Theorem append_strings_depth (str : cont_type A) (strs : list (cont_type A)) :
  size (str ++ List.concat strs) < size_t_modulus ->
  (List.length strs <= 91)%nat ->
  exists n,
    Rope.root_ (append_strings (Rope.of_string str) strs) = Some n /\
    rope_ok (append_strings (Rope.of_string str) strs) /\
    tree_to_string n = str ++ List.concat strs /\
    depth n = Z.of_nat (List.length strs) /\
    Rope.is_balanced (append_strings (Rope.of_string str) strs) =
      Ok (Fib (List.length strs + 2) <=? size (str ++ List.concat strs)).
Proof.
  intros Hfit Hcount. rewrite size_app in Hfit.
  pose proof (size_nonneg (List.concat strs)) as H0.
  destruct (append_strings_spec strs (Rope.of_string str) (leaf str))
    as (n & Hroot & Hok & Hstr & Hh).
  { apply of_string_ok. lia. }
  { reflexivity. }
  { exact Hfit. }
  simpl in Hstr, Hh.
  assert (depth n = Z.of_nat (List.length strs)) as Hd.
  { rewrite depth_height; rewrite Hh; [reflexivity|unfold size_t_modulus; lia]. }
  exists n. split_and!; try assumption.
  rewrite (is_balanced_value _ n Hroot), Hd.
  rewrite sz_add_small by (unfold size_t_modulus; lia).
  replace (Z.to_nat (Z.of_nat (List.length strs) + 2))
    with (List.length strs + 2)%nat by lia.
  rewrite wrap_small by (apply Fib_fits; lia).
  rewrite (rope_length_ok _ Hok). unfold Rope.to_string. rewrite Hroot, Hstr.
  reflexivity.
Qed.

(** X24. [operator==] and [operator!=] compare contents, not trees: the
    rope that [balance()] leaves is equal to a copy of the rope taken
    before, whether or not the tree was rebuilt. *)
Theorem balance_result_equal `{EqDecision A} R :
  rope_ok R -> 1 <= Rope.length R < 1134903170 ->
  exists R0 R1,
    Rope.copy_rope R = Ok R0 /\
    Rope.balance R = (Ok tt, R1) /\
    Rope.equal R1 R0 = true /\ Rope.not_equal R1 R0 = false.
Proof.
  intros HR Hlen.
  destruct (balance_keeps_string R HR Hlen) as (R1 & Hrun & Hstr & _).
  pose proof HR as (r & Hroot & _).
  exists (Rope.mk_rope (Some r)), R1.
  split; [apply copy_rope_root, Hroot|]. split; [exact Hrun|].
  assert (Rope.equal R1 (Rope.mk_rope (Some r)) = true) as Heq.
  { unfold Rope.equal. apply bool_decide_eq_true. rewrite Hstr.
    unfold Rope.to_string. rewrite Hroot. reflexivity. }
  unfold Rope.not_equal. rewrite Heq. auto.
Qed.
End BalanceExtras.

Lemma balance_preserves_content_witness :
  exists R1,
    Rope.balance a_to_g = (Ok tt, R1) /\
    Rope.to_string R1 = Rope.to_string a_to_g /\
    Rope.length R1 = Rope.length a_to_g /\
    rope_ok R1 /\
    match Rope.is_balanced a_to_g with
    | Ok true => R1 = a_to_g
    | _ => True
    end.
Proof.
  apply (balance_preserves_content a_to_g).
  - exact a_to_g_ok.
  - vm_compute. split; [discriminate|reflexivity].
Defined.

Lemma balance_builds_full_tree_witness :
  exists root,
    Rope.balance a_to_g = (Ok tt, Rope.mk_rope (Some root)) /\
    Node.tree_to_string root = Rope.to_string a_to_g /\
    well_formed root /\ has_single_child root = false /\ packed root = true.
Proof.
  apply (balance_builds_full_tree a_to_g).
  - exact a_to_g_ok.
  - vm_compute. split; [discriminate|reflexivity].
  - vm_compute. reflexivity.
Defined.

Lemma erased_abc_ok : rope_ok (Rope.erase abc 0 3).2.
Proof.
  eexists. split; [vm_compute; reflexivity|].
  vm_compute. repeat split; reflexivity.
Defined.

Lemma balance_without_content_witness :
  Rope.is_balanced (Rope.erase abc 0 3).2 = Ok false /\
  Rope.balance (Rope.erase abc 0 3).2 = (Err VectorIndex, (Rope.erase abc 0 3).2).
Proof.
  eapply (balance_without_content (Rope.erase abc 0 3).2).
  - exact erased_abc_ok.
  - vm_compute. reflexivity.
  - vm_compute. repeat constructor.
  - vm_compute. reflexivity.
Defined.

Lemma append_strings_depth_witness :
  exists n,
    Rope.root_ (append_strings (Rope.of_string (chars "a"))
                  [chars "b"; chars "c"; chars "d"]) = Some n /\
    rope_ok (append_strings (Rope.of_string (chars "a"))
               [chars "b"; chars "c"; chars "d"]) /\
    Node.tree_to_string n = chars "a" ++ List.concat [chars "b"; chars "c"; chars "d"] /\
    Node.depth n = Z.of_nat (List.length [chars "b"; chars "c"; chars "d"]) /\
    Rope.is_balanced (append_strings (Rope.of_string (chars "a"))
                        [chars "b"; chars "c"; chars "d"]) =
      Ok (Fib (List.length [chars "b"; chars "c"; chars "d"] + 2) <=?
          size (chars "a" ++ List.concat [chars "b"; chars "c"; chars "d"])).
Proof.
  apply (append_strings_depth (chars "a") [chars "b"; chars "c"; chars "d"]).
  - reflexivity.
  - simpl. lia.
Defined.

Lemma balance_result_equal_witness :
  exists R0 R1,
    Rope.copy_rope a_to_g = Ok R0 /\
    Rope.balance a_to_g = (Ok tt, R1) /\
    Rope.equal R1 R0 = true /\ Rope.not_equal R1 R0 = false.
Proof.
  apply (balance_result_equal a_to_g).
  - exact a_to_g_ok.
  - vm_compute. split; [discriminate|reflexivity].
Defined.
